(** * gu: template-driven CSS rules, and the asset bundler

    A shallow embedding of [trees/css/css.go] and a verification of the
    properties its specification states: the template helpers, the
    selector rewriting ([adjustName], [morphRule]), the extension lookup
    ([extend]) and the orchestration of a render ([Stylesheet]); then of
    the bundler of package [assets] ([Webpack]).

    Go strings are byte strings: [string] with [ascii] as the byte.  The
    functions of Go's [strings], [unicode] and [unicode/utf8] packages
    that [css.go] calls are embedded from their Go sources; the douceur
    CSS types are embedded from [douceur/css]; the template engine and
    the CSS parser are parameters of the development. *)

From Stdlib Require Import ZArith NArith Lia Bool Ascii String List.
From Stdlib Require Import FunctionalExtensionality.
From stdpp Require Import base list gmap.

(** [simpl] unfolds [String.append] as the Standard Library has it. *)
Arguments String.append : clear simpl.
Import ListNotations.

Local Open Scope Z_scope.

(** ** Go strings *)

Notation "s1 +:+ s2" := (String.append s1 s2)
  (at level 60, right associativity) : stdpp_scope.

(** [s[i]] as a number. *)
Definition byteZ (c : ascii) : Z := Z.of_N (N_of_ascii c).

(** [len(s)]. *)
Abbreviation len := String.length.

(** [s[n:]]. *)
Fixpoint sdrop (n : nat) (s : string) : string :=
  match n, s with
  | O, _ => s
  | S _, EmptyString => EmptyString
  | S k, String _ s' => sdrop k s'
  end.

(** [s[:n]]. *)
Fixpoint stake (n : nat) (s : string) : string :=
  match n, s with
  | O, _ => EmptyString
  | S _, EmptyString => EmptyString
  | S k, String c s' => String c (stake k s')
  end.

(** ** Package unicode/utf8 *)
Module utf8.

Definition RuneError : Z := 65533.
Definition RuneSelf : Z := 128.
Definition UTFMax : nat := 4.

(** The continuation-byte range [locb..hicb]. *)
Definition locb : Z := 128.
Definition hicb : Z := 191.

(** The [first] table joined with [acceptRanges]: for a leading byte, the
    size of the sequence it opens and the range its second byte must lie
    in; [None] for the bytes marked [xx] (never a leading byte).  ASCII
    bytes are handled before the table is consulted. *)
Definition first (b : Z) : option (nat * (Z * Z)) :=
  if (194 <=? b) && (b <=? 223) then Some (2%nat, (locb, hicb))
  else if b =? 224 then Some (3%nat, (160, hicb))
  else if (225 <=? b) && (b <=? 236) then Some (3%nat, (locb, hicb))
  else if b =? 237 then Some (3%nat, (locb, 159))
  else if (238 <=? b) && (b <=? 239) then Some (3%nat, (locb, hicb))
  else if b =? 240 then Some (4%nat, (144, hicb))
  else if (241 <=? b) && (b <=? 243) then Some (4%nat, (locb, hicb))
  else if b =? 244 then Some (4%nat, (locb, 143))
  else None.

Definition cont (b : Z) : bool := (locb <=? b) && (b <=? hicb).

(** [DecodeRuneInString(s)]: the first rune of [s] and its width in
    bytes; [(RuneError, 0)] on the empty string and [(RuneError, 1)] on an
    invalid or truncated encoding. *)
Definition DecodeRuneInString (s : string) : Z * nat :=
  match s with
  | EmptyString => (RuneError, 0%nat)
  | String c0 r0 =>
    let s0 := byteZ c0 in
    if s0 <? RuneSelf then (s0, 1%nat)
    else match first s0 with
    | None => (RuneError, 1%nat)
    | Some (sz, (lo, hi)) =>
      if (len s <? sz)%nat then (RuneError, 1%nat)
      else match r0 with
      | EmptyString => (RuneError, 1%nat)
      | String c1 r1 =>
        let s1 := byteZ c1 in
        if (s1 <? lo) || (hi <? s1) then (RuneError, 1%nat)
        else if (sz <=? 2)%nat
        then (Z.lor (Z.shiftl (Z.land s0 31) 6) (Z.land s1 63), 2%nat)
        else match r1 with
        | EmptyString => (RuneError, 1%nat)
        | String c2 r2 =>
          let s2 := byteZ c2 in
          if negb (cont s2) then (RuneError, 1%nat)
          else if (sz <=? 3)%nat
          then (Z.lor (Z.lor (Z.shiftl (Z.land s0 15) 12)
                             (Z.shiftl (Z.land s1 63) 6))
                      (Z.land s2 63), 3%nat)
          else match r2 with
          | EmptyString => (RuneError, 1%nat)
          | String c3 _ =>
            let s3 := byteZ c3 in
            if negb (cont s3) then (RuneError, 1%nat)
            else (Z.lor (Z.lor (Z.lor (Z.shiftl (Z.land s0 7) 18)
                                      (Z.shiftl (Z.land s1 63) 12))
                               (Z.shiftl (Z.land s2 63) 6))
                        (Z.land s3 63), 4%nat)
          end
        end
      end
    end
  end.

(** [RuneStart(b)]: [b] is not a continuation byte. *)
Definition RuneStart (b : Z) : bool := negb (Z.land b 192 =? 128).

(** The backward scan of [DecodeLastRuneInString]: from [start], while
    [start >= lim], stop at the first byte that can start a rune. *)
Fixpoint scanStart (fuel : nat) (s : string) (start lim : Z) : Z :=
  match fuel with
  | O => start
  | S k =>
    if start <? lim then start
    else match String.get (Z.to_nat start) s with
         | Some c => if RuneStart (byteZ c) then start
                     else scanStart k s (start - 1) lim
         | None => start
         end
  end.

(** [DecodeLastRuneInString(s)]: the last rune of [s] and its width. *)
Definition DecodeLastRuneInString (s : string) : Z * nat :=
  let end_ := Z.of_nat (len s) in
  if end_ =? 0 then (RuneError, 0%nat)
  else
    let start := end_ - 1 in
    match String.get (Z.to_nat start) s with
    | None => (RuneError, 0%nat)
    | Some c =>
      let r := byteZ c in
      if r <? RuneSelf then (r, 1%nat)
      else
        let lim := Z.max 0 (end_ - Z.of_nat UTFMax) in
        let start := scanStart (S UTFMax) s (start - 1) lim in
        let start := Z.max 0 start in
        let '(r, size) := DecodeRuneInString (sdrop (Z.to_nat start) s) in
        if start + Z.of_nat size =? end_ then (r, size)
        else (RuneError, 1%nat)
    end.

(** [RuneCountInString(s)]: every decoded rune, valid or not, counts. *)
Fixpoint runeCount (fuel : nat) (s : string) : nat :=
  match fuel with
  | O => O
  | S k =>
    match s with
    | EmptyString => O
    | _ => S (runeCount k (sdrop (snd (DecodeRuneInString s)) s))
    end
  end.

Definition RuneCountInString (s : string) : nat := runeCount (len s) s.

End utf8.

(** ** Package unicode *)
Module unicode.

(** [IsSpace(r)]: the Latin-1 spaces and the code points of Unicode's
    [White_Space] property. *)
Definition IsSpace (r : Z) : bool :=
  ((9 <=? r) && (r <=? 13)) || (r =? 32) || (r =? 133) || (r =? 160)
  || (r =? 5760) || ((8192 <=? r) && (r <=? 8202))
  || (r =? 8232) || (r =? 8233) || (r =? 8239) || (r =? 8287)
  || (r =? 12288).

End unicode.

(** ** Package strings *)
Module strings.

(** [HasPrefix(s, prefix)]. *)
Fixpoint HasPrefix (s prefix : string) : bool :=
  match prefix, s with
  | EmptyString, _ => true
  | String _ _, EmptyString => false
  | String p prefix', String c s' => Ascii.eqb c p && HasPrefix s' prefix'
  end.

(** [Index(s, substr)]: the byte offset of the first occurrence of
    [substr] in [s], or [-1]. *)
Fixpoint Index (s substr : string) : Z :=
  if HasPrefix s substr then 0
  else match s with
       | EmptyString => -1
       | String _ s' => let i := Index s' substr in
                        if i <? 0 then -1 else i + 1
       end.

(** [Contains(s, substr)]. *)
Definition Contains (s substr : string) : bool := 0 <=? Index s substr.

(** The loop of [Count] for a non-empty [substr]: occurrences are found
    left to right and do not overlap. *)
Fixpoint countLoop (fuel : nat) (s substr : string) : nat :=
  match fuel with
  | O => O
  | S k =>
    let i := Index s substr in
    if i <? 0 then O
    else S (countLoop k (sdrop (Z.to_nat i + len substr) s) substr)
  end.

(** [Count(s, substr)]. *)
Definition Count (s substr : string) : nat :=
  match substr with
  | EmptyString => S (utf8.RuneCountInString s)
  | _ => countLoop (S (len s)) s substr
  end.

(** The replacement loop of [Replace]: [n] rounds, [i] counting them. *)
Fixpoint replaceLoop (n : nat) (i : nat) (s old new : string) : string :=
  match n with
  | O => s
  | S k =>
    let j := match old with
             | EmptyString =>
               match i with
               | O => O
               | S _ => snd (utf8.DecodeRuneInString s)
               end
             | _ => Z.to_nat (Index s old)
             end in
    stake j s +:+ new +:+ replaceLoop k (S i) (sdrop (j + len old) s) old new
  end.

(** [Replace(s, old, new, n)]: the first [n] occurrences of [old]
    replaced by [new]; all of them when [n < 0]. *)
Definition Replace (s old new : string) (n : Z) : string :=
  if String.eqb old new || (n =? 0) then s
  else
    let m := Count s old in
    if (m =? 0)%nat then s
    else
      let n := if (n <? 0) || (Z.of_nat m <? n) then m else Z.to_nat n in
      replaceLoop n O s old new.

(** [indexFunc(s, f, truth)] from offset [start]. *)
Fixpoint indexFunc (fuel : nat) (s : string) (f : Z -> bool) (truth : bool)
    (start : nat) : Z :=
  match fuel with
  | O => -1
  | S k =>
    match sdrop start s with
    | EmptyString => -1
    | String c _ as rest =>
      let '(r, wid) :=
        if byteZ c <? utf8.RuneSelf then (byteZ c, 1%nat)
        else utf8.DecodeRuneInString rest in
      if Bool.eqb (f r) truth then Z.of_nat start
      else indexFunc k s f truth (start + wid)
    end
  end.

(** [lastIndexFunc(s, f, truth)], scanning back from offset [i]. *)
Fixpoint lastIndexFunc (fuel : nat) (s : string) (f : Z -> bool)
    (truth : bool) (i : nat) : Z :=
  match fuel with
  | O => -1
  | S k =>
    match i with
    | O => -1
    | S _ =>
      let '(r, size) := utf8.DecodeLastRuneInString (stake i s) in
      let i := (i - size)%nat in
      if Bool.eqb (f r) truth then Z.of_nat i
      else lastIndexFunc k s f truth i
    end
  end.

(** [TrimLeftFunc(s, f)]. *)
Definition TrimLeftFunc (s : string) (f : Z -> bool) : string :=
  let i := indexFunc (len s) s f false O in
  if i =? -1 then EmptyString else sdrop (Z.to_nat i) s.

(** [TrimRightFunc(s, f)]. *)
Definition TrimRightFunc (s : string) (f : Z -> bool) : string :=
  let i := lastIndexFunc (len s) s f false (len s) in
  let i :=
    if (0 <=? i) &&
       match String.get (Z.to_nat i) s with
       | Some c => utf8.RuneSelf <=? byteZ c
       | None => false
       end
    then i + Z.of_nat (snd (utf8.DecodeRuneInString (sdrop (Z.to_nat i) s)))
    else i + 1 in
  stake (Z.to_nat i) s.

(** [TrimFunc(s, f)]. *)
Definition TrimFunc (s : string) (f : Z -> bool) : string :=
  TrimRightFunc (TrimLeftFunc s f) f.

(** [TrimSpace(s)]: all leading and trailing white space removed, as
    defined by Unicode. *)
Definition TrimSpace (s : string) : string := TrimFunc s unicode.IsSpace.

(** [Join(a, sep)]. *)
Fixpoint Join (a : list string) (sep : string) : string :=
  match a with
  | [] => EmptyString
  | [x] => x
  | x :: rest => x +:+ sep +:+ Join rest sep
  end.

End strings.

(** ** Package douceur/css (imported as [bcss]) *)
Module bcss.

(** [RuleKind]: [QualifiedRule] is [iota], [AtRule] follows. *)
Inductive RuleKind : Set := QualifiedRule | AtRule.

Definition RuleKind_eqb (a b : RuleKind) : bool :=
  match a, b with
  | QualifiedRule, QualifiedRule | AtRule, AtRule => true
  | _, _ => false
  end.

(** [Declaration]: a parsed style property. *)
Record Declaration : Set := mkDeclaration {
  Property : string;
  Value : string;
  Important : bool
}.

(** [Rule]: a parsed CSS rule; [Rules] are the rules embedded in an
    at-rule. *)
#[local] Set Warnings "-register-all".
Inductive Rule : Set := mkRule {
  Kind : RuleKind;
  Name : string;
  Prelude : string;
  Selectors : list string;
  Declarations : list Declaration;
  Rules : list Rule;
  EmbedLevel : Z
}.

(** [Stylesheet]: its only field is the rule list, [Stylesheet.Rules]. *)
Record Stylesheet : Set := mkStylesheet { Stylesheet_Rules : list Rule }.

(** [decl.StringWithImportant(option)]. *)
Definition StringWithImportant (decl : Declaration) (option : bool) : string :=
  let result := Property decl +:+ ": " +:+ Value decl in
  let result :=
    if option && Important decl then result +:+ " !important" else result in
  result +:+ ";".

(** [decl.String()]. *)
Definition String (decl : Declaration) : string :=
  StringWithImportant decl true.

End bcss.

(** ** Go's [int]

    [int] is taken at 64 bits; arithmetic wraps around in two's
    complement. *)
Definition intSize : Z := 64.
Definition minInt : Z := - 2 ^ (intSize - 1).
Definition maxInt : Z := 2 ^ (intSize - 1) - 1.

Definition wrapInt (z : Z) : Z :=
  let m := Z.land z (Z.ones intSize) in
  if Z.testbit m (intSize - 1) then m - 2 ^ intSize else m.

Definition isInt (z : Z) : Prop := minInt <= z <= maxInt.

(** ** Package css: the template helpers *)
Module helpers.

Definition add (a b : Z) : Z := wrapInt (a + b).
Definition multiply (a b : Z) : Z := wrapInt (a * b).
Definition subtract (a b : Z) : Z := wrapInt (b - a).

End helpers.

(** ** Package css: extension lookup and selector rewriting *)

(** The line feed that joins the rendered declarations. *)
Definition newline : string := String.String (ascii_of_nat 10) EmptyString.

(** The inner loop of [extend]: every declaration of the matched rule is
    rendered and appended to [attrs]. *)
Fixpoint extendDeclarations (decls : list bcss.Declaration)
    (attrs : list string) : list string :=
  match decls with
  | [] => attrs
  | prop :: rest =>
    if bcss.Important prop
    then extendDeclarations rest
           (attrs ++ [bcss.StringWithImportant prop (bcss.Important prop)])
    else extendDeclarations rest (attrs ++ [bcss.String prop])
  end.

(** The outer loop of [extend]: rules whose prelude differs are skipped
    ([continue]); the first one that matches is rendered and ends the
    loop ([break]). *)
Fixpoint extendRules (rules : list bcss.Rule) (item : string)
    (attrs : list string) : list string :=
  match rules with
  | [] => attrs
  | rule :: rest =>
    if negb (String.eqb (bcss.Prelude rule) item)
    then extendRules rest item attrs
    else extendDeclarations (bcss.Declarations rule) attrs
  end.

(** [r.extend(item)], as a function of the receiver's [feedStyle]. *)
Definition extend (feedStyle : option bcss.Stylesheet) (item : string)
    : string :=
  match feedStyle with
  | None => EmptyString
  | Some sheet =>
    strings.Join (extendRules (bcss.Stylesheet_Rules sheet) item []) newline
  end.

(** [r.adjustName(sel, parentNode)]. *)
Definition adjustName (sel parentNode : string) : string :=
  let sel := strings.TrimSpace sel in
  if strings.Contains sel "&" then strings.Replace sel "&" parentNode (-1)
  else if strings.HasPrefix sel ":" then parentNode +:+ EmptyString +:+ sel
  else sel.

(** The loop [for index, sel := range s { s[index] = adjustName(sel) }]:
    [pending] are the elements still to visit, [sels] the slice being
    written. *)
Fixpoint adjustSelectors (index : nat) (pending sels : list string)
    (parentNode : string) : list string :=
  match pending with
  | [] => sels
  | sel :: rest =>
    adjustSelectors (S index) rest
      (<[index := adjustName sel parentNode]> sels) parentNode
  end.

(** A rule with its [Selectors] field replaced. *)
Definition setSelectors (rule : bcss.Rule) (sels : list string) : bcss.Rule :=
  bcss.mkRule (bcss.Kind rule) (bcss.Name rule) (bcss.Prelude rule) sels
    (bcss.Declarations rule) (bcss.Rules rule) (bcss.EmbedLevel rule).

(** [r.morphRule(base, parentNode)]: the rule after the in-place
    rewriting. *)
Fixpoint morphRule (base : bcss.Rule) (parentNode : string) {struct base}
    : bcss.Rule :=
  match base with
  | bcss.mkRule kind name prelude selectors declarations rules level =>
    bcss.mkRule kind name prelude
      (adjustSelectors O selectors selectors parentNode)
      declarations
      (List.map
         (fun rule =>
            if bcss.RuleKind_eqb (bcss.Kind rule) bcss.AtRule
            then morphRule rule parentNode
            else setSelectors rule
                   (adjustSelectors O (bcss.Selectors rule)
                      (bcss.Selectors rule) parentNode))
         rules)
      level
  end.

(** ** Package css: rules and their rendering *)

(** What a call yields: a value, a Go [error], a run-time panic (a nil
    pointer dereferenced), or no answer within the recursion budget. *)
Inductive Outcome (E A : Type) : Type :=
| Ok (a : A)
| Err (e : E)
| Panic
| OutOfFuel.
Arguments Ok {E A} a.
Arguments Err {E A} e.
Arguments Panic {E A}.
Arguments OutOfFuel {E A}.

(** A [*Rule]: [None] is [nil], [Some a] the rule allocated [a]-th. *)
Abbreviation ptr := (option nat).

Section Engine.

(** The template engine ([text/template]) and the CSS parser
    ([douceur/parser]) are libraries the package calls. *)
Variable Template : Type.
Variable Binding : Type.
Variable Error : Type.

(** [template.New("css").Funcs(...).Parse(rules)]. *)
Variable ParseTemplate : string -> Error + Template.

(** [tmpl.Execute(&content, bind)] with [extend] bound to the closure
    given: the text written, or the error. *)
Variable Execute : Template -> (string -> string) -> Binding -> Error + string.

(** [parser.Parse(text)]. *)
Variable Parse : string -> Error + bcss.Stylesheet.

(** [Rule]: [feed] and [depends] point to other rules. *)
Record Rule : Type := mkRule {
  template : Template;
  feed : ptr;
  feedStyle : option bcss.Stylesheet;
  depends : list ptr
}.

(** The rules allocated so far, by address, and the log of the
    [Stylesheet] invocations made so far, oldest first. *)
Record State : Type := mkState {
  heap : list Rule;
  calls : list ptr
}.

(** Computations over the state that may fail. *)
Definition M (A : Type) : Type := State -> Outcome Error A * State.

Definition ret {A} (a : A) : M A := fun st => (Ok a, st).

Definition mbind {A B} (c : M A) (k : A -> M B) : M B :=
  fun st =>
    match c st with
    | (Ok a, st') => k a st'
    | (Err err, st') => (Err err, st')
    | (Panic, st') => (Panic, st')
    | (OutOfFuel, st') => (OutOfFuel, st')
    end.

Notation "x <- c ;; k" := (mbind c (fun x => k))
  (at level 100, c at next level, right associativity).
Notation "c ;;; k" := (mbind c (fun _ => k))
  (at level 100, right associativity).

(** A Go result [(value, err)] returned as it is. *)
Definition try {A} (res : Error + A) : M A :=
  fun st => match res with inl err => (Err err, st) | inr a => (Ok a, st) end.

Definition outOfFuel {A} : M A := fun st => (OutOfFuel, st).

Definition logCall (r : ptr) : M unit :=
  fun st => (Ok tt, mkState (heap st) (calls st ++ [r])).

(** [*r]: a nil pointer panics.  An address without a rule, which no Go
    pointer is, is treated alike. *)
Definition deref (r : ptr) : M (nat * Rule) :=
  fun st =>
    match r with
    | None => (Panic, st)
    | Some a =>
      match heap st !! a with
      | Some this => (Ok (a, this), st)
      | None => (Panic, st)
      end
    end.

(** [r.feedStyle = sheet] for the rule at address [a]. *)
Definition setFeedStyle (a : nat) (sheet : bcss.Stylesheet) : M unit :=
  fun st =>
    (Ok tt,
     mkState
       (alter (fun o => mkRule (template o) (feed o) (Some sheet) (depends o))
          a (heap st))
       (calls st)).

(** [r.feedStyle] for the rule at address [a]. *)
Definition getFeedStyle (a : nat) : M (option bcss.Stylesheet) :=
  fun st =>
    (Ok match heap st !! a with
        | Some o => feedStyle o
        | None => None
        end,
     st).

(** [New(rules, extension, rs...)]: allocates the rule; panics when the
    template does not parse. *)
Definition New (rules : string) (extension : ptr) (rs : list ptr) : M ptr :=
  fun st =>
    match ParseTemplate rules with
    | inl err => (Panic, st)
    | inr tmp =>
      (Ok (Some (length (heap st))),
       mkState (heap st ++ [mkRule tmp extension None rs]) (calls st))
    end.

(** The loop over [r.depends]: [call] is [rule.Stylesheet(bind,
    parentNode)], [acc] is [stylesheet.Rules]. *)
Fixpoint dependsLoop (call : ptr -> M bcss.Stylesheet) (rs : list ptr)
    (acc : list bcss.Rule) : M (list bcss.Rule) :=
  match rs with
  | [] => ret acc
  | rule :: rest =>
    sheet <- call rule ;;
    dependsLoop call rest (acc ++ bcss.Stylesheet_Rules sheet)
  end.

(** The block [if r.feed != nil { ... }]: the feed is resolved by [call]
    and its stylesheet stored in the field [feedStyle] of the rule at
    address [a]. *)
Definition feedBlock (call : ptr -> M bcss.Stylesheet) (a : nat) (this : Rule)
    : M unit :=
  match feed this with
  | Some _ =>
    sheet <- call (feed this) ;;
    setFeedStyle a sheet
  | None => ret tt
  end.

(** [r.Stylesheet(bind, parentNode)].  [feed], [depends] and [template]
    are assigned once, in [New]; [feedStyle] is read where [extend] reads
    it, during the execution of the template. *)
Fixpoint Stylesheet (fuel : nat) (r : ptr) (bind : Binding)
    (parentNode : string) : M bcss.Stylesheet :=
  match fuel with
  | O => outOfFuel
  | S fuel' =>
    logCall r ;;;
    target <- deref r ;;
    let '(a, this) := target in
    feedBlock (fun rule => Stylesheet fuel' rule bind parentNode) a this ;;;
    rules <- dependsLoop (fun rule => Stylesheet fuel' rule bind parentNode)
               (depends this) [] ;;
    style <- getFeedStyle a ;;
    content <- try (Execute (template this) (extend style) bind) ;;
    sheet <- try (Parse content) ;;
    ret (bcss.mkStylesheet
           (rules ++
            List.map (fun rule => morphRule rule parentNode)
              (bcss.Stylesheet_Rules sheet)))
  end.

(** Reference: every entry of a [depends] list resolved by [call], in
    order, each resolved stylesheet kept apart. *)
Fixpoint resolveAll (call : ptr -> M bcss.Stylesheet) (rs : list ptr)
    : M (list bcss.Stylesheet) :=
  match rs with
  | [] => ret []
  | rule :: rest =>
    sheet <- call rule ;;
    sheets <- resolveAll call rest ;;
    ret (sheet :: sheets)
  end.

(** Reference: the field [feedStyle] of the rule at address [a]. *)
Definition styleAt (a : nat) (st : State) : option bcss.Stylesheet :=
  match heap st !! a with
  | Some o => feedStyle o
  | None => None
  end.

(** Reference: the tail of [Stylesheet], which no longer touches the
    state: the template is executed with [extend] reading [style], its
    output parsed, the parsed rules rewritten and appended to [rules]. *)
Definition finish (this : Rule) (style : option bcss.Stylesheet)
    (bind : Binding) (parentNode : string) (rules : list bcss.Rule)
    : Outcome Error bcss.Stylesheet :=
  match Execute (template this) (extend style) bind with
  | inl err => Err err
  | inr content =>
    match Parse content with
    | inl err => Err err
    | inr sheet =>
      Ok (bcss.mkStylesheet
            (rules ++
             List.map (fun rule => morphRule rule parentNode)
               (bcss.Stylesheet_Rules sheet)))
    end
  end.

(** The highest address a call on [r] can write to, plus one. *)
Definition bound (r : ptr) : nat :=
  match r with
  | Some a => S a
  | None => O
  end.

(** Pointers lead to rules allocated earlier: what [New], the only
    constructor, guarantees. *)
Definition ordered (h : list Rule) : Prop :=
  forall a this, h !! a = Some this ->
    (forall f, feed this = Some f -> (f < a)%nat) /\
    Forall (fun rule : ptr => forall d, rule = Some d -> (d < a)%nat)
      (depends this).

(** What no call ever writes. *)
Definition frozen (o : Rule) : Template * ptr * list ptr :=
  (template o, feed o, depends o).

(** The frame of a computation on the heap: the frozen parts stay, and
    so does every rule from address [n] on. *)
Definition framed (n : nat) (st st' : State) : Prop :=
  List.map frozen (heap st') = List.map frozen (heap st) /\
  (ordered (heap st) ->
   forall x, (n <= x)%nat -> heap st' !! x = heap st !! x).

End Engine.

Arguments mkRule {Template} template feed feedStyle depends.
Arguments template {Template} r.
Arguments feed {Template} r.
Arguments feedStyle {Template} r.
Arguments depends {Template} r.
Arguments mkState {Template} heap calls.
Arguments heap {Template} s.
Arguments calls {Template} s.
Arguments ret {Template Error A} a st.
Arguments mbind {Template Error A B} c k st.
Arguments try {Template Error A} res st.
Arguments outOfFuel {Template Error A} st.
Arguments logCall {Template Error} r st.
Arguments deref {Template Error} r st.
Arguments setFeedStyle {Template Error} a sheet st.
Arguments getFeedStyle {Template Error} a st.
Arguments New {Template Error} ParseTemplate rules extension rs st.
Arguments dependsLoop {Template Error} call rs acc st.
Arguments feedBlock {Template Error} call a this st.
Arguments Stylesheet {Template Binding Error} Execute Parse fuel r bind
  parentNode st.
Arguments resolveAll {Template Error} call rs st.
Arguments styleAt {Template} a st.
Arguments finish {Template Binding Error} Execute Parse this style bind
  parentNode rules.
Arguments ordered {Template} h.
Arguments frozen {Template} o.
Arguments framed {Template} n st st'.

(** ** Reference definitions

    What the claims speak of, stated directly on the data. *)

(** The byte [c] occurs in [s]. *)
Fixpoint occurs (c : ascii) (s : string) : bool :=
  match s with
  | EmptyString => false
  | String.String x s' => Ascii.eqb x c || occurs c s'
  end.

(** [s] with every occurrence of the byte [c] replaced by [new]. *)
Fixpoint substitute (c : ascii) (new s : string) : string :=
  match s with
  | EmptyString => EmptyString
  | String.String x s' =>
    (if Ascii.eqb x c then new else String.String x EmptyString)
    +:+ substitute c new s'
  end.

(** The parent-reference marker and the pseudo-selector marker. *)
Definition amp : ascii := "&"%char.
Definition colon : ascii := ":"%char.

(** The ASCII white space: tab, line feed, vertical tab, form feed,
    carriage return and space. *)
Definition asciiSpace (c : ascii) : bool :=
  let b := byteZ c in ((9 <=? b) && (b <=? 13)) || (b =? 32).

(** A string of ASCII white space only. *)
Fixpoint allSpace (s : string) : bool :=
  match s with
  | EmptyString => true
  | String.String c s' => asciiSpace c && allSpace s'
  end.

(** An ASCII byte that is not white space. *)
Definition asciiInk (c : ascii) : bool :=
  (byteZ c <? 128) && negb (asciiSpace c).

(** The last byte of a string. *)
Fixpoint lastOf (s : string) : option ascii :=
  match s with
  | EmptyString => None
  | String.String c EmptyString => Some c
  | String.String _ s' => lastOf s'
  end.

(** A string that is empty, or starts and ends with ASCII bytes that are
    not white space: what is left of a selector once the white space
    around it is gone. *)
Definition inkBounded (core : string) : bool :=
  match core, lastOf core with
  | String.String c _, Some d => asciiInk c && asciiInk d
  | _, _ => match core with EmptyString => true | _ => false end
  end.

(** How [extend] renders one declaration: the text of the property and
    of the value, the importance marker when the flag is set, and the
    closing semicolon. *)
Definition rendered (decl : bcss.Declaration) : string :=
  bcss.Property decl +:+ ": " +:+ bcss.Value decl
  +:+ (if bcss.Important decl then " !important" else EmptyString) +:+ ";".

(** The rule found by following [path] down the [Rules] lists. *)
Fixpoint reach (base : bcss.Rule) (path : list nat) : option bcss.Rule :=
  match path with
  | [] => Some base
  | i :: rest =>
    match nth_error (bcss.Rules base) i with
    | Some nested => reach nested rest
    | None => None
    end
  end.

Definition isAtRule (rule : bcss.Rule) : bool :=
  bcss.RuleKind_eqb (bcss.Kind rule) bcss.AtRule.

(** Every rule strictly between [base] and the end of [path] is an
    at-rule. *)
Fixpoint throughAtRules (base : bcss.Rule) (path : list nat) : bool :=
  match path with
  | [] => true
  | i :: rest =>
    match rest with
    | [] => true
    | _ :: _ =>
      match nth_error (bcss.Rules base) i with
      | Some nested => isAtRule nested && throughAtRules nested rest
      | None => true
      end
    end
  end.

(** A rule with the [Selectors] field emptied, at every depth: all that
    a rule holds besides its selectors. *)
Fixpoint eraseSelectors (rule : bcss.Rule) : bcss.Rule :=
  match rule with
  | bcss.mkRule kind name prelude _ declarations rules level =>
    bcss.mkRule kind name prelude [] declarations
      (List.map eraseSelectors rules) level
  end.

(** An induction principle that reaches the nested rules. *)
Fixpoint Rule_nested_ind (P : bcss.Rule -> Prop)
    (step : forall kind name prelude sels decls rules level,
        Forall P rules ->
        P (bcss.mkRule kind name prelude sels decls rules level))
    (rule : bcss.Rule) {struct rule} : P rule :=
  match rule with
  | bcss.mkRule kind name prelude sels decls rules level =>
    step kind name prelude sels decls rules level
      ((fix all (l : list bcss.Rule) : Forall P l :=
          match l with
          | [] => List.Forall_nil P
          | r :: l' =>
            List.Forall_cons P r l' (Rule_nested_ind P step r) (all l')
          end) rules)
  end.

(** What [morphRule] does to a rule nested in the one it was called on. *)
Definition morphNested (parentNode : string) (rule : bcss.Rule) : bcss.Rule :=
  if isAtRule rule then morphRule rule parentNode
  else setSelectors rule
         (List.map (fun sel => adjustName sel parentNode) (bcss.Selectors rule)).

(** Two stylesheets that differ in the [Selectors] fields at most. *)
Definition sameButSelectors (s s' : bcss.Stylesheet) : Prop :=
  List.map eraseSelectors (bcss.Stylesheet_Rules s)
  = List.map eraseSelectors (bcss.Stylesheet_Rules s').

(** Two states that differ at most in the [Selectors] fields of the
    cached feed stylesheets. *)
Definition similarRule {Template} (o o' : Rule Template) : Prop :=
  frozen o = frozen o' /\
  option_Forall2 sameButSelectors (feedStyle o) (feedStyle o').

Definition similar {Template} (st st' : State Template) : Prop :=
  calls st = calls st' /\ Forall2 similarRule (heap st) (heap st').

(** Two outcomes of the same kind, the values related by [R]. *)
Definition sameOutcome {E A} (R : A -> A -> Prop) (o o' : Outcome E A)
    : Prop :=
  match o, o' with
  | Ok a, Ok a' => R a a'
  | Err e, Err e' => e = e'
  | Panic, Panic => True
  | OutOfFuel, OutOfFuel => True
  | _, _ => False
  end.

(** ** A small engine to run the development on

    A template is a list of pieces; the parser knows a handful of
    texts. *)
Module Sample.

Local Open Scope string_scope.

Inductive Piece : Set :=
| Text (s : string)
| Data
| CallExtend (name : string)
| Broken (msg : string).

Definition Template : Set := list Piece.
Definition Binding : Set := string.
Definition Error : Set := string.

Definition ParseTemplate (rules : string) : Error + Template :=
  if strings.HasPrefix rules "{{" then inl "template: unexpected {{"%string
  else inr [Text rules].

Fixpoint Execute (t : Template) (ext : string -> string) (bind : Binding)
    : Error + string :=
  match t with
  | [] => inr EmptyString
  | piece :: rest =>
    match piece, Execute rest ext bind with
    | Broken msg, _ => inl msg
    | _, inl err => inl err
    | Text s, inr out => inr (s +:+ out)
    | Data, inr out => inr (bind +:+ out)
    | CallExtend name, inr out => inr (ext name +:+ out)
    end
  end.

Definition qualified (prelude : string) (decls : list bcss.Declaration)
    : bcss.Rule :=
  bcss.mkRule bcss.QualifiedRule EmptyString prelude [prelude] decls [] 0.

Definition red : bcss.Declaration := bcss.mkDeclaration "color" "red" true.
Definition blue : bcss.Declaration := bcss.mkDeclaration "color" "blue" false.
Definition wide : bcss.Declaration := bcss.mkDeclaration "width" "10px" false.

(** [@media print { &.c {} @supports (x) { :hover {} .deep { ... } } }]:
    the last rule sits, as the parser would not put it, under a rule that
    is not an at-rule. *)
Definition media : bcss.Rule :=
  bcss.mkRule bcss.AtRule "@media" "print" [] []
    [ qualified "&.c" [];
      bcss.mkRule bcss.AtRule "@supports" "(x)" ["& (x)"%string] []
        [ qualified ":hover" [] ] 1;
      bcss.mkRule bcss.QualifiedRule EmptyString ".deep" [".deep"%string] []
        [ qualified "&.inner" [] ] 1 ] 0.

Definition grammar : list (string * bcss.Stylesheet) :=
  [ (EmptyString, bcss.mkStylesheet []);
    (".b{}"%string, bcss.mkStylesheet [qualified ".b" []]);
    ("&.c{}"%string, bcss.mkStylesheet [qualified "&.c" []]);
    (".base{color:red!important;width:10px}"%string,
     bcss.mkStylesheet [qualified ".base" [red; wide]]);
    (":hover{color: red !important;" +:+ newline +:+ "width: 10px;}",
     bcss.mkStylesheet [qualified ":hover" [red; wide]]);
    ("@media"%string, bcss.mkStylesheet [media]) ].

Fixpoint lookup (text : string) (table : list (string * bcss.Stylesheet))
    : Error + bcss.Stylesheet :=
  match table with
  | [] => inl "css: unexpected input"%string
  | (key, sheet) :: rest =>
    if String.eqb key text then inr sheet else lookup text rest
  end.

Definition Parse (text : string) : Error + bcss.Stylesheet :=
  lookup text grammar.

Definition run := @Stylesheet Template Binding Error Execute Parse.

(** Six rules: [0] and [1] are plain, [2] is the feed of [3] and [5],
    [4] fails to execute, [3] depends on [0] and [1], [5] on [4] and
    [0]. *)
Definition rules : list (Rule Template) :=
  [ mkRule [Text ".b{}"] None None [];
    mkRule [Text "&.c{}"] None None [];
    mkRule [Text ".base{color:red!important;width:10px}"] None None [];
    mkRule [Text ":hover{"; CallExtend ".base"; Text "}"] (Some 2%nat) None
      [Some 0%nat; Some 1%nat];
    mkRule [Broken "boom"] None None [];
    mkRule [Text ".b{}"] (Some 2%nat) None [Some 4%nat; Some 0%nat] ].

Definition start : State Template := mkState rules [].

(** A feed stylesheet with two rules of the same prelude. *)
Definition twice : bcss.Stylesheet :=
  bcss.mkStylesheet
    [ qualified ".z" [wide]; qualified ".a" [red; wide];
      qualified ".a" [blue] ].

End Sample.

(** ** Further reference definitions *)

(** A selector the rewriting has nothing to do on: no surrounding white
    space, no [&], no leading [:]. *)
Definition plainSelector (sel : string) : bool :=
  String.eqb (strings.TrimSpace sel) sel
  && negb (occurs amp sel)
  && negb (strings.HasPrefix sel ":").

(** Every selector [morphRule] visits from [base] is plain: those of
    [base], of the rules nested in it and, through at-rules, of what they
    nest. *)
Fixpoint plainTree (base : bcss.Rule) : bool :=
  match base with
  | bcss.mkRule _ _ _ selectors _ rules _ =>
    forallb plainSelector selectors
    && forallb
         (fun rule =>
            if bcss.RuleKind_eqb (bcss.Kind rule) bcss.AtRule
            then plainTree rule
            else forallb plainSelector (bcss.Selectors rule))
         rules
  end.

(** Two heaps that hold the same rules and agree on the [feedStyle] of
    the rules without feed: they may differ in the stylesheets cached for
    the rules that have one. *)
Definition agreeButCaches {Template} (h h' : list (Rule Template)) : Prop :=
  List.map frozen h = List.map frozen h' /\
  forall x o, h !! x = Some o -> feed o = None -> h' !! x = Some o.

(** Two runs, from [h] to [s] and from [h'] to [s'], that wrote alike:
    each rule was left alone by both or is the same after both; neither
    touched what is frozen. *)
Definition wroteAlike {Template} (h s h' s' : list (Rule Template)) : Prop :=
  List.map frozen s = List.map frozen h /\
  List.map frozen s' = List.map frozen h' /\
  forall x, (s !! x = h !! x /\ s' !! x = h' !! x) \/ s !! x = s' !! x.


(** A state with [extra] rules allocated after those of [st]. *)
Definition extended {Template} (st : State Template)
    (extra : list (Rule Template)) : State Template :=
  mkState (heap st ++ extra) (calls st).

(** More sample rules, on the sample engine: [0] fails to execute, [1]
    is plain, [2] has [0] as feed, [3] holds a nil pointer in [depends]. *)
Module Sample2.

Local Open Scope string_scope.

Definition rules : list (Rule Sample.Template) :=
  [ mkRule [Sample.Broken "boom"] None None [];
    mkRule [Sample.Text "&.c{}"] None None [];
    mkRule [Sample.Text ".b{}"] (Some 0%nat) None [Some 1%nat];
    mkRule [Sample.Text ".b{}"] None None [Some 1%nat; None; Some 0%nat] ].

Definition start : State Sample.Template := mkState rules [].

End Sample2.

(** ** Package assets: the bundler

    [Webpack] dispatches the files of a directory, by extension, to
    packers.  The statements of files and directories, [GetDirStatement]
    and the source generator are parts of the package and of its imports
    that are not at hand: they are parameters.  [WriteDirective.Read],
    which compresses, is left out. *)
Module assets.

(** A Go map: [None] is the nil map, which reads as empty and panics
    when written. *)
Definition GoMap (V : Type) : Type := option (gmap string V).

(** [v, ok := m[key]]: [None] when [ok] is false. *)
Definition mapIndex {V} (m : GoMap V) (key : string) : option V :=
  match m with
  | Some entries => entries !! key
  | None => None
  end.

(** [m[key] = v]: [None] is the panic of a write to the nil map. *)
Definition mapAssign {V} (m : GoMap V) (key : string) (v : V)
    : option (GoMap V) :=
  match m with
  | Some entries => Some (Some (<[key := v]> entries))
  | None => None
  end.

(** What a call yields: the values returned, the last an [error] ([None]
    is nil), or a panic. *)
Inductive Result (E A : Type) : Type :=
| Returns (a : A) (err : option E)
| Panics.
Arguments Returns {E A} a err.
Arguments Panics {E A}.

Section Webpack.

Variable FileStatement : Type.
Variable DirStatement : Type.
Variable WriterTo : Type.
Variable Error : Type.

(** The field [FilesByExt] of a [DirStatement]. *)
Variable FilesByExt : DirStatement -> gmap string (list FileStatement).

(** [GetDirStatement(dir, doGoSources)]. *)
Variable GetDirStatement : string -> bool -> DirStatement * option Error.

(** The order in which [range] visits the entries of a map, which Go
    leaves open. *)
Variable rangeOrder :
  gmap string (list FileStatement) -> list (string * list FileStatement).

(** [fmt.Errorf] on the message for an extension no packer handles. *)
Variable noPackerError : string -> Error.

(** [WriteDirective]. *)
Record WriteDirective : Type := mkWriteDirective {
  Writer : WriterTo;
  OriginPath : string;
  OriginAbsPath : string
}.

(** [gen.Block(gen.SourceTextWith(...))] over [Dir] and [Directives]. *)
Variable packedSource : string -> GoMap (list WriteDirective) -> WriterTo.

(** [Packer]: the interface, by its method [Pack]. *)
Record Packer : Type := mkPacker {
  Pack : list FileStatement -> DirStatement
         -> list WriteDirective * option Error
}.

(** [Webpack]; a nil interface value is [None]. *)
Record Webpack : Type := mkWebpack {
  defaultPacker : option Packer;
  packers : GoMap (option Packer)
}.

(** [New(defaultPacker)]. *)
Definition New (defaultPacker : option Packer) : Webpack :=
  mkWebpack defaultPacker (Some ∅).

(** [w.Register(ext, packer)]: the bundler after the call, or [None]
    for the panic of a write to a nil map. *)
Definition Register (w : Webpack) (ext : string) (packer : option Packer)
    : option Webpack :=
  match mapAssign (packers w) ext packer with
  | Some m => Some (mkWebpack (defaultPacker w) m)
  | None => None
  end.

(** The loop of [Build] over the entries still to visit; [err] is the
    variable [err] of [Build], [wd] its variable [wd]. *)
Fixpoint buildLoop (w : Webpack) (statement : DirStatement)
    (err : option Error)
    (entries : list (string * list FileStatement))
    (wd : GoMap (list WriteDirective))
    : Result Error (GoMap (list WriteDirective)) :=
  match entries with
  | [] => Returns wd None
  | (ext, fileStatement) :: rest =>
    let found := mapIndex (packers w) ext in
    let ok := match found with Some _ => true | None => false end in
    let packer := match found with Some p => p | None => None end in
    if negb ok && match defaultPacker w with None => true | Some _ => false end
    then Returns wd (Some (noPackerError ext))
    else
      let packed :=
        match defaultPacker w, ok with
        | Some standard, false => Some (Pack standard fileStatement statement)
        | _, _ => option_map (fun p => Pack p fileStatement statement) packer
        end in
      match packed with
      | None => Panics
      | Some (directives, Some _) => Returns wd err
      | Some (directives, None) =>
        match mapAssign wd ext directives with
        | Some wd' => buildLoop w statement err rest wd'
        | None => Panics
        end
      end
  end.

(** [w.Build(dir, doGoSources)]. *)
Definition Build (w : Webpack) (dir : string) (doGoSources : bool)
    : Result Error (GoMap (list WriteDirective)) :=
  match GetDirStatement dir doGoSources with
  | (_, Some err) => Returns None (Some err)
  | (statement, None) =>
    buildLoop w statement None (rangeOrder (FilesByExt statement)) None
  end.

(** [w.Compile(dir, doGoSources)]. *)
Definition Compile (w : Webpack) (dir : string) (doGoSources : bool)
    : Result Error (option WriterTo) :=
  match Build w dir doGoSources with
  | Panics => Panics
  | Returns _ (Some err) => Returns None (Some err)
  | Returns directives None => Returns (Some (packedSource dir directives)) None
  end.

(** Reference: the packer [Build] hands the files of [ext] to. *)
Definition serves (w : Webpack) (ext : string) (p : Packer) : Prop :=
  mapIndex (packers w) ext = Some (Some p) \/
  (mapIndex (packers w) ext = None /\ defaultPacker w = Some p).

End Webpack.

Arguments mkWriteDirective {WriterTo} Writer OriginPath OriginAbsPath.
Arguments mkPacker {FileStatement DirStatement WriterTo Error} Pack.
Arguments Pack {FileStatement DirStatement WriterTo Error} p files dir.
Arguments mkWebpack {FileStatement DirStatement WriterTo Error}
  defaultPacker packers.
Arguments defaultPacker {FileStatement DirStatement WriterTo Error} w.
Arguments packers {FileStatement DirStatement WriterTo Error} w.
Arguments New {FileStatement DirStatement WriterTo Error} defaultPacker.
Arguments Register {FileStatement DirStatement WriterTo Error} w ext packer.
Arguments serves {FileStatement DirStatement WriterTo Error} w ext p.

End assets.

(** A directory with one style sheet, or none, and two packers. *)
Module SampleAssets.

Local Open Scope string_scope.

Definition Statement : Type := gmap string (list string).

Definition GetDirStatement (dir : string) (doGoSources : bool)
    : Statement * option string :=
  if String.eqb dir "missing" then (∅, Some "no such directory")
  else if String.eqb dir "empty" then (∅, None)
  else ({[ "css" := ["a.css"] ]}, None).

Definition noPackerError (ext : string) : string :=
  "No Packer provided to handle files with " +:+ ext +:+ " extension".

Definition packedSource (dir : string)
    (directives : assets.GoMap (list (assets.WriteDirective string)))
    : string :=
  match directives with
  | None => "// " +:+ dir
  | Some _ => "// " +:+ dir +:+ ": packed"
  end.

Definition copy : assets.Packer string Statement string string :=
  assets.mkPacker
    (fun files _ =>
       (List.map (fun f => assets.mkWriteDirective f f f) files, None)).

Definition refuse : assets.Packer string Statement string string :=
  assets.mkPacker (fun _ _ => ([], Some "cannot pack")).

Definition Build :=
  assets.Build string Statement string string (fun s => s) GetDirStatement
    map_to_list noPackerError.

Definition Compile :=
  assets.Compile string Statement string string (fun s => s) GetDirStatement
    map_to_list noPackerError packedSource.

End SampleAssets.

(** * Verification *)

(** ** Go's [int] and the template helpers *)

Lemma wrapInt_mod (z : Z) :
  wrapInt z = (z + 2 ^ 63) mod 2 ^ 64 - 2 ^ 63.
Proof.
  unfold wrapInt, intSize. rewrite Z.land_ones by lia.
  pose proof (Z.mod_pos_bound z (2 ^ 64) ltac:(lia)) as Hm.
  set (m := z mod 2 ^ 64) in *.
  destruct (Z.testbit m (64 - 1)) eqn:Hb.
  - apply Z.testbit_true in Hb; [|lia].
    assert (m / 2 ^ 63 = 1) as Hq.
    { assert (0 <= m / 2 ^ 63 < 2).
      { split; [apply Z.div_pos; lia|apply Z.div_lt_upper_bound; lia]. }
      change (64 - 1) with 63 in Hb.
      destruct (Z.eq_dec (m / 2 ^ 63) 0) as [E|E]; [rewrite E in Hb; discriminate|lia]. }
    assert (2 ^ 63 <= m) by (pose proof (Z.div_mod m (2 ^ 63) ltac:(lia)); pose proof (Z.mod_pos_bound m (2 ^ 63) ltac:(lia)); lia).
    symmetry. apply Z.sub_move_r.
    rewrite <- (Z.mod_unique (z + 2 ^ 63) (2 ^ 64) (z / 2 ^ 64 + 1) (m - 2 ^ 64 + 2 ^ 63)); [lia|lia|].
    pose proof (Z.div_mod z (2 ^ 64) ltac:(lia)). subst m. lia.
  - assert (m / 2 ^ 63 = 0) as Hq.
    { assert (0 <= m / 2 ^ 63 < 2).
      { split; [apply Z.div_pos; lia|apply Z.div_lt_upper_bound; lia]. }
      destruct (Z.eq_dec (m / 2 ^ 63) 1) as [E|E]; [|lia].
      assert (Z.testbit m (64 - 1) = true); [|congruence].
      apply Z.testbit_true; [lia|]. change (64 - 1) with 63. rewrite E. reflexivity. }
    assert (m < 2 ^ 63) by (pose proof (Z.div_mod m (2 ^ 63) ltac:(lia)); pose proof (Z.mod_pos_bound m (2 ^ 63) ltac:(lia)); lia).
    symmetry. apply Z.sub_move_r.
    rewrite <- (Z.mod_unique (z + 2 ^ 63) (2 ^ 64) (z / 2 ^ 64) (m + 2 ^ 63)); [lia|lia|].
    pose proof (Z.div_mod z (2 ^ 64) ltac:(lia)). subst m. lia.
Qed.

Lemma wrapInt_isInt (z : Z) : isInt (wrapInt z).
Proof.
  rewrite wrapInt_mod. unfold isInt, minInt, maxInt, intSize.
  pose proof (Z.mod_pos_bound (z + 2 ^ 63) (2 ^ 64) ltac:(lia)).
  change (64 - 1) with 63. lia.
Qed.

Lemma wrapInt_congr (z : Z) : (wrapInt z - z) mod 2 ^ intSize = 0.
Proof.
  rewrite wrapInt_mod. unfold intSize.
  pose proof (Z.div_mod (z + 2 ^ 63) (2 ^ 64) ltac:(lia)) as H.
  replace ((z + 2 ^ 63) mod 2 ^ 64 - 2 ^ 63 - z)
    with (- ((z + 2 ^ 63) / 2 ^ 64) * 2 ^ 64) by lia.
  apply Z.mod_mul. lia.
Qed.

Lemma wrapInt_exact (z : Z) : isInt z -> wrapInt z = z.
Proof.
  unfold isInt, minInt, maxInt, intSize. change (64 - 1) with 63. intros H.
  rewrite wrapInt_mod. rewrite Z.mod_small; lia.
Qed.

(** C8. The helpers' operand order and operation, in Go's [int]
    arithmetic: [subtract(a, b)] is [b - a] (the operands reversed),
    [add(a, b)] is [a + b] and [multiply(a, b)] is [a * b].  Each result is
    the [int] congruent to the exact value modulo [2^64], and is the exact
    value whenever that is an [int]. *)
Theorem helpers_compute (a b : Z) :
  (isInt (helpers.subtract a b) /\
   (helpers.subtract a b - (b - a)) mod 2 ^ intSize = 0 /\
   (isInt (b - a) -> helpers.subtract a b = b - a)) /\
  (isInt (helpers.add a b) /\
   (helpers.add a b - (a + b)) mod 2 ^ intSize = 0 /\
   (isInt (a + b) -> helpers.add a b = a + b)) /\
  (isInt (helpers.multiply a b) /\
   (helpers.multiply a b - a * b) mod 2 ^ intSize = 0 /\
   (isInt (a * b) -> helpers.multiply a b = a * b)).
Proof.
  unfold helpers.subtract, helpers.add, helpers.multiply.
  split; [|split];
    (split; [apply wrapInt_isInt | split; [apply wrapInt_congr | apply wrapInt_exact]]).
Qed.

(** The order of [subtract]'s operands is observable. *)
Example subtract_reversed : helpers.subtract 2 10 = 8 /\ helpers.subtract 10 2 = -8.
Proof. split; reflexivity. Qed.

(** ** Go strings: slices, search and replacement *)

Lemma append_nil_r (s : string) : s +:+ EmptyString = s.
Proof. induction s; simpl; congruence. Qed.

Lemma append_assoc (s1 s2 s3 : string) :
  (s1 +:+ s2) +:+ s3 = s1 +:+ (s2 +:+ s3).
Proof. induction s1; simpl; congruence. Qed.

Lemma occurs_sdrop c n s : occurs c (sdrop n s) = true -> occurs c s = true.
Proof.
  revert s. induction n as [|n IH]; intros [|x s]; simpl; auto.
  intros H. rewrite (IH _ H). apply orb_true_r.
Qed.

Lemma occurs_stake c n s : occurs c (stake n s) = true -> occurs c s = true.
Proof.
  revert s. induction n as [|n IH]; intros [|x s]; simpl; try discriminate.
  intros H. apply orb_true_iff in H as [H|H].
  - rewrite H. reflexivity.
  - rewrite (IH _ H). apply orb_true_r.
Qed.

Lemma substitute_absent c new s : occurs c s = false -> substitute c new s = s.
Proof.
  induction s as [|x s IH]; simpl; [reflexivity|].
  intros H. apply orb_false_iff in H as [Hx Hs].
  rewrite Hx. simpl. rewrite IH by assumption. reflexivity.
Qed.

Lemma substitute_same c s :
  substitute c (String.String c EmptyString) s = s.
Proof.
  induction s as [|x s IH]; simpl; [reflexivity|].
  destruct (Ascii.eqb x c) eqn:E; simpl; rewrite IH; [|reflexivity].
  apply Ascii.eqb_eq in E. congruence.
Qed.

Lemma substitute_app c new s1 s2 :
  substitute c new (s1 +:+ s2) = substitute c new s1 +:+ substitute c new s2.
Proof.
  induction s1 as [|x s1 IH]; simpl; [reflexivity|].
  rewrite IH, append_assoc. reflexivity.
Qed.

Lemma stake_app_len s1 s2 : stake (len s1) (s1 +:+ s2) = s1.
Proof. induction s1; simpl; [destruct s2; reflexivity|congruence]. Qed.

Lemma sdrop_app_len s1 s2 : sdrop (len s1) (s1 +:+ s2) = s2.
Proof. induction s1; simpl; auto. Qed.

Lemma len_app s1 s2 : len (s1 +:+ s2) = (len s1 + len s2)%nat.
Proof. induction s1; simpl; auto. Qed.

(** Searching for a one-byte string. *)
Lemma HasPrefix_byte x s c :
  strings.HasPrefix (String.String x s) (String.String c EmptyString)
  = Ascii.eqb x c.
Proof. simpl. destruct s; apply andb_true_r. Qed.

(** Where [Index] finds a one-byte string: nowhere when the byte does not
    occur, else right after the longest prefix free of it. *)
Lemma Index_byte c s :
  (occurs c s = false /\ strings.Index s (String.String c EmptyString) = -1) \/
  (exists pre post,
     s = pre +:+ String.String c post /\ occurs c pre = false /\
     strings.Index s (String.String c EmptyString) = Z.of_nat (len pre)).
Proof.
  induction s as [|x s IH].
  - left. split; reflexivity.
  - cbn [strings.Index]. rewrite HasPrefix_byte. cbn [occurs].
    destruct (Ascii.eqb x c) eqn:E.
    + right. exists EmptyString, s. apply Ascii.eqb_eq in E. subst x.
      repeat split.
    + destruct IH as [[Hocc Hidx]|(pre & post & Hs & Hocc & Hidx)].
      * left. rewrite Hidx. split; [assumption|reflexivity].
      * right. exists (String.String x pre), post. rewrite Hidx.
        destruct (Z.ltb_spec (Z.of_nat (len pre)) 0); [lia|].
        cbn [occurs String.append len]. rewrite E, Hs.
        repeat split; [assumption|lia].
Qed.

Lemma Contains_byte c s :
  strings.Contains s (String.String c EmptyString) = occurs c s.
Proof.
  unfold strings.Contains.
  destruct (Index_byte c s) as [[Hocc Hidx]|(pre & post & Hs & Hocc & Hidx)].
  - rewrite Hidx, Hocc. reflexivity.
  - rewrite Hidx. subst s.
    assert (occurs c (pre +:+ String.String c post) = true) as ->.
    { clear. induction pre as [|x pre IH]; simpl.
      - rewrite Ascii.eqb_refl. reflexivity.
      - rewrite IH. apply orb_true_r. }
    apply Z.leb_le. lia.
Qed.

(** [Count] of a one-byte string is zero exactly when the byte does not
    occur. *)
Lemma Count_byte_zero c s :
  (strings.Count s (String.String c EmptyString) =? 0)%nat = negb (occurs c s).
Proof.
  unfold strings.Count. cbn [strings.countLoop].
  destruct (Index_byte c s) as [[Hocc Hidx]|(pre & post & Hs & Hocc & Hidx)].
  - rewrite Hidx, Hocc. reflexivity.
  - rewrite Hidx, <- Contains_byte. unfold strings.Contains. rewrite Hidx.
    destruct (Z.ltb_spec (Z.of_nat (len pre)) 0); [lia|].
    destruct (Z.leb_spec 0 (Z.of_nat (len pre))); [reflexivity|lia].
Qed.

(** The replacement loop, run at least as many rounds as the byte occurs,
    replaces every occurrence... *)
Lemma countLoop_byte c fuel s :
  (len s < fuel)%nat ->
  forall i new,
    strings.replaceLoop
      (strings.countLoop fuel s (String.String c EmptyString)) i s
      (String.String c EmptyString) new
    = substitute c new s.
Proof.
  revert s. induction fuel as [|fuel IH]; intros s Hlen i new; [lia|].
  cbn [strings.countLoop].
  destruct (Index_byte c s) as [[Hocc Hidx]|(pre & post & Hs & Hocc & Hidx)].
  - rewrite Hidx. cbn. symmetry. apply substitute_absent, Hocc.
  - rewrite Hidx.
    destruct (Z.ltb_spec (Z.of_nat (len pre)) 0); [lia|].
    cbn [strings.replaceLoop]. rewrite Hidx, Nat2Z.id.
    cbn [len]. subst s.
    rewrite stake_app_len.
    replace (len pre + 1)%nat with (len (pre +:+ String.String c EmptyString))
      by (rewrite len_app; reflexivity).
    replace (pre +:+ String.String c post)
      with ((pre +:+ String.String c EmptyString) +:+ post)
      by (rewrite append_assoc; reflexivity).
    rewrite sdrop_app_len, IH.
    + rewrite !substitute_app, (substitute_absent _ _ _ Hocc). simpl.
      rewrite Ascii.eqb_refl, append_nil_r, append_assoc. reflexivity.
    + rewrite !len_app in Hlen. simpl in Hlen. lia.
Qed.

(** ... so [Replace(s, c, new, -1)] substitutes [new] for every
    occurrence of the byte. *)
Lemma Replace_byte_all c s new :
  strings.Replace s (String.String c EmptyString) new (-1)
  = substitute c new s.
Proof.
  unfold strings.Replace.
  destruct (String.eqb (String.String c EmptyString) new) eqn:E.
  - apply String.eqb_eq in E. subst new. symmetry. apply substitute_same.
  - cbn [orb Z.eqb]. rewrite Count_byte_zero.
    destruct (occurs c s) eqn:Hocc; cbn [negb].
    + cbn [Z.ltb Z.compare orb]. unfold strings.Count.
      apply countLoop_byte. lia.
    + symmetry. apply substitute_absent, Hocc.
Qed.

(** ** Go strings: trimming

    [TrimSpace] on a string padded with ASCII white space: the padding
    goes, the rest stays. *)

Lemma IsSpace_ascii (c : ascii) :
  (byteZ c <? 128) = true -> unicode.IsSpace (byteZ c) = asciiSpace c.
Proof.
  intros H. apply Z.ltb_lt in H. unfold unicode.IsSpace, asciiSpace. cbv zeta.
  destruct (Z.eqb_spec (byteZ c) 133); [lia|].
  destruct (Z.eqb_spec (byteZ c) 160); [lia|].
  destruct (Z.eqb_spec (byteZ c) 5760); [lia|].
  destruct (Z.eqb_spec (byteZ c) 8232); [lia|].
  destruct (Z.eqb_spec (byteZ c) 8233); [lia|].
  destruct (Z.eqb_spec (byteZ c) 8239); [lia|].
  destruct (Z.eqb_spec (byteZ c) 8287); [lia|].
  destruct (Z.eqb_spec (byteZ c) 12288); [lia|].
  destruct (Z.leb_spec 8192 (byteZ c)); [lia|].
  cbn [andb]. rewrite !orb_false_r. reflexivity.
Qed.

Lemma asciiSpace_ascii (c : ascii) :
  asciiSpace c = true -> (byteZ c <? 128) = true.
Proof.
  unfold asciiSpace. cbv zeta. intros H. apply Z.ltb_lt.
  apply orb_true_iff in H as [H|H].
  - apply andb_true_iff in H as [_ H]. apply Z.leb_le in H. lia.
  - apply Z.eqb_eq in H. lia.
Qed.

Lemma sdrop_step (start : nat) (s : string) c rest :
  sdrop start s = String.String c rest -> sdrop (start + 1) s = rest.
Proof.
  revert s. induction start as [|start IH]; intros [|x s]; cbn;
    try discriminate.
  - intros H. injection H as _ ->. reflexivity.
  - apply IH.
Qed.

(** The scan from the left stops at the first byte that is not white
    space, or finds none. *)
Lemma indexFunc_spaces (s : string) :
  forall pad rest fuel start,
    sdrop start s = pad +:+ rest ->
    allSpace pad = true ->
    match rest with
    | EmptyString => True
    | String.String c _ => asciiInk c = true /\ (len pad < fuel)%nat
    end ->
    strings.indexFunc fuel s unicode.IsSpace false start
    = match rest with
      | EmptyString => -1
      | String.String _ _ => Z.of_nat (start + len pad)
      end.
Proof.
  induction pad as [|x pad IH]; intros rest fuel start Hs Hpad Hrest.
  - cbn [String.append] in Hs. destruct rest as [|c rest].
    + destruct fuel; cbn [strings.indexFunc]; [reflexivity|].
      rewrite Hs. reflexivity.
    + destruct Hrest as [Hc Hfuel]. destruct fuel as [|fuel]; [cbn in Hfuel; lia|].
      cbn [strings.indexFunc]. rewrite Hs.
      unfold asciiInk in Hc. apply andb_true_iff in Hc as [Hlt Hink].
      change utf8.RuneSelf with 128. rewrite Hlt.
      rewrite (IsSpace_ascii _ Hlt). apply negb_true_iff in Hink.
      rewrite Hink. cbn [Bool.eqb len]. f_equal. lia.
  - cbn [allSpace] in Hpad. apply andb_true_iff in Hpad as [Hx Hpad].
    cbn [String.append] in Hs.
    destruct fuel as [|fuel].
    { destruct rest; [reflexivity|]. destruct Hrest as [_ Hfuel]. lia. }
    cbn [strings.indexFunc]. rewrite Hs.
    pose proof (asciiSpace_ascii _ Hx) as Hlt.
    change utf8.RuneSelf with 128. rewrite Hlt.
    rewrite (IsSpace_ascii _ Hlt), Hx. cbn [Bool.eqb].
    rewrite (IH rest fuel (start + 1)%nat (sdrop_step _ _ _ _ Hs) Hpad).
    + destruct rest; [reflexivity|]. cbn [len]. f_equal. lia.
    + destruct rest; [exact I|]. destruct Hrest as [Hc Hfuel].
      split; [exact Hc|]. cbn [len] in Hfuel. lia.
Qed.

Lemma TrimLeftFunc_spaces (pad rest : string) :
  allSpace pad = true ->
  match rest with
  | EmptyString => True
  | String.String c _ => asciiInk c = true
  end ->
  strings.TrimLeftFunc (pad +:+ rest) unicode.IsSpace = rest.
Proof.
  intros Hpad Hrest. unfold strings.TrimLeftFunc.
  rewrite (indexFunc_spaces (pad +:+ rest) pad rest _ O eq_refl Hpad).
  - destruct rest as [|c rest]; [reflexivity|].
    destruct (Z.eqb_spec (Z.of_nat (0 + len pad)) (-1)); [lia|].
    rewrite Nat2Z.id. apply sdrop_app_len.
  - destruct rest as [|c rest]; [exact I|]. split; [exact Hrest|].
    rewrite len_app. cbn [len]. lia.
Qed.

Lemma lastOf_app_byte (s : string) (c : ascii) :
  lastOf (s +:+ String.String c EmptyString) = Some c.
Proof.
  induction s as [|x s IH]; [reflexivity|].
  cbn [String.append lastOf]. rewrite IH.
  destruct (s +:+ String.String c EmptyString) eqn:E; [|reflexivity].
  destruct s; discriminate.
Qed.

Lemma lastOf_get (s : string) :
  String.get (len s - 1) s = lastOf s.
Proof.
  induction s as [|x s IH]; [reflexivity|].
  destruct s as [|y s]; [reflexivity|].
  change (lastOf (String.String x (String.String y s)))
    with (lastOf (String.String y s)).
  rewrite <- IH. cbn [len].
  replace (S (S (len s)) - 1)%nat with (S (S (len s) - 1)) by lia.
  reflexivity.
Qed.

Lemma get_app_l (s1 s2 : string) (n : nat) :
  (n < len s1)%nat -> String.get n (s1 +:+ s2) = String.get n s1.
Proof.
  revert n. induction s1 as [|x s1 IH]; intros n Hn; cbn in Hn; [lia|].
  destruct n as [|n]; [reflexivity|]. cbn. apply IH. lia.
Qed.

Lemma lastOf_Some_len (s : string) c : lastOf s = Some c -> (0 < len s)%nat.
Proof. destruct s; [discriminate|cbn; lia]. Qed.

(** The last rune of a string that ends with an ASCII byte is that
    byte. *)
Lemma DecodeLast_ascii (s : string) (c : ascii) :
  lastOf s = Some c -> (byteZ c <? 128) = true ->
  utf8.DecodeLastRuneInString s = (byteZ c, 1%nat).
Proof.
  intros Hlast Hlt. unfold utf8.DecodeLastRuneInString. cbv zeta.
  pose proof (lastOf_Some_len _ _ Hlast) as Hlen.
  destruct (Z.eqb_spec (Z.of_nat (len s)) 0); [lia|].
  replace (Z.to_nat (Z.of_nat (len s) - 1)) with (len s - 1)%nat by lia.
  rewrite lastOf_get, Hlast. change utf8.RuneSelf with 128. rewrite Hlt.
  reflexivity.
Qed.

(** A string's last byte, split off. *)
Lemma string_snoc (s : string) :
  s <> EmptyString ->
  exists init x, s = init +:+ String.String x EmptyString.
Proof.
  induction s as [|c s IH]; [congruence|]. intros _.
  destruct s as [|d s].
  - exists EmptyString, c. reflexivity.
  - destruct (IH ltac:(discriminate)) as (init & x & E).
    exists (String.String c init), x. cbn [String.append]. rewrite <- E.
    reflexivity.
Qed.

Lemma allSpace_app (s1 s2 : string) :
  allSpace (s1 +:+ s2) = allSpace s1 && allSpace s2.
Proof.
  induction s1 as [|x s1 IH]; [reflexivity|].
  cbn [String.append allSpace]. rewrite IH, andb_assoc. reflexivity.
Qed.

(** The scan from the right stops at the last byte that is not white
    space. *)
Lemma lastIndexFunc_spaces (core : string) (d : ascii) :
  lastOf core = Some d -> asciiInk d = true ->
  forall n pad rest fuel,
    len pad = n ->
    allSpace pad = true ->
    (n < fuel)%nat ->
    strings.lastIndexFunc fuel (core +:+ pad +:+ rest) unicode.IsSpace false
      (len core + n)
    = Z.of_nat (len core - 1).
Proof.
  intros Hlast Hd. pose proof (lastOf_Some_len _ _ Hlast) as Hcore.
  unfold asciiInk in Hd. apply andb_true_iff in Hd as [Hdlt Hdink].
  apply negb_true_iff in Hdink.
  induction n as [|n IH]; intros pad rest fuel Hlen Hpad Hfuel.
  - destruct pad; [|discriminate]. cbn [String.append].
    destruct fuel as [|fuel]; [lia|]. cbn [strings.lastIndexFunc].
    rewrite Nat.add_0_r. destruct (len core) as [|k] eqn:Hk; [lia|].
    rewrite <- Hk, stake_app_len, (DecodeLast_ascii _ _ Hlast Hdlt).
    rewrite (IsSpace_ascii _ Hdlt), Hdink. cbn [Bool.eqb]. reflexivity.
  - assert (pad <> EmptyString) as Hne by (intros ->; discriminate).
    destruct (string_snoc pad Hne) as (init & x & ->).
    rewrite len_app in Hlen. cbn [len] in Hlen.
    rewrite allSpace_app in Hpad. apply andb_true_iff in Hpad as [Hinit Hx].
    cbn [allSpace] in Hx. rewrite andb_true_r in Hx.
    pose proof (asciiSpace_ascii _ Hx) as Hxlt.
    destruct fuel as [|fuel]; [lia|]. cbn [strings.lastIndexFunc].
    replace (len core + S n)%nat with (S (len core + n)) by lia.
    assert (stake (S (len core + n))
              (core +:+ (init +:+ String.String x EmptyString) +:+ rest)
            = (core +:+ init) +:+ String.String x EmptyString) as Hstake.
    { replace (S (len core + n))
        with (len ((core +:+ init) +:+ String.String x EmptyString))
        by (rewrite !len_app; cbn [len]; lia).
      rewrite <- (stake_app_len
                    ((core +:+ init) +:+ String.String x EmptyString) rest)
        at 2.
      rewrite !append_assoc. reflexivity. }
    rewrite Hstake, (DecodeLast_ascii _ x (lastOf_app_byte _ _) Hxlt).
    rewrite (IsSpace_ascii _ Hxlt), Hx. cbn [Bool.eqb].
    replace (S (len core + n) - 1)%nat with (len core + n)%nat by lia.
    replace (core +:+ (init +:+ String.String x EmptyString) +:+ rest)
      with (core +:+ init +:+ (String.String x EmptyString +:+ rest))
      by (rewrite !append_assoc; reflexivity).
    apply IH; [lia|exact Hinit|lia].
Qed.

Lemma TrimRightFunc_spaces (core pad : string) (d : ascii) :
  lastOf core = Some d -> asciiInk d = true -> allSpace pad = true ->
  strings.TrimRightFunc (core +:+ pad) unicode.IsSpace = core.
Proof.
  intros Hlast Hd Hpad. pose proof (lastOf_Some_len _ _ Hlast) as Hcore.
  unfold strings.TrimRightFunc. cbv zeta.
  assert (strings.lastIndexFunc (len (core +:+ pad)) (core +:+ pad)
            unicode.IsSpace false (len (core +:+ pad))
          = Z.of_nat (len core - 1)) as ->.
  { pose proof (lastIndexFunc_spaces core d Hlast Hd (len pad) pad EmptyString
                  (len core + len pad) eq_refl Hpad ltac:(lia)) as H.
    rewrite append_nil_r in H. rewrite len_app. exact H. }
  rewrite Nat2Z.id.
  rewrite get_app_l by lia. rewrite lastOf_get, Hlast.
  unfold asciiInk in Hd. apply andb_true_iff in Hd as [Hdlt _].
  change utf8.RuneSelf with 128.
  destruct (Z.leb_spec 128 (byteZ d)); [apply Z.ltb_lt in Hdlt; lia|].
  rewrite andb_false_r.
  replace (Z.to_nat (Z.of_nat (len core - 1) + 1)) with (len core) by lia.
  apply stake_app_len.
Qed.

(** [TrimSpace] takes the ASCII white space off both ends. *)
Lemma TrimSpace_padded (lead core trail : string) :
  allSpace lead = true -> allSpace trail = true -> inkBounded core = true ->
  strings.TrimSpace (lead +:+ core +:+ trail) = core.
Proof.
  intros Hlead Htrail Hcore. unfold strings.TrimSpace, strings.TrimFunc.
  unfold inkBounded in Hcore. destruct core as [|c core].
  - cbn [String.append].
    rewrite <- (append_nil_r (lead +:+ trail)).
    rewrite (TrimLeftFunc_spaces (lead +:+ trail) EmptyString);
      [reflexivity| |exact I].
    rewrite allSpace_app, Hlead, Htrail. reflexivity.
  - destruct (lastOf (String.String c core)) as [d|] eqn:Hlast;
      [|discriminate].
    apply andb_true_iff in Hcore as [Hc Hd].
    rewrite (TrimLeftFunc_spaces lead (String.String c core +:+ trail) Hlead Hc).
    exact (TrimRightFunc_spaces _ trail d Hlast Hd Htrail).
Qed.

(** [TrimSpace] returns a slice of its argument. *)
Lemma occurs_TrimLeftFunc c s f :
  occurs c (strings.TrimLeftFunc s f) = true -> occurs c s = true.
Proof.
  unfold strings.TrimLeftFunc.
  destruct (_ =? -1); [discriminate|apply occurs_sdrop].
Qed.

Lemma occurs_TrimRightFunc c s f :
  occurs c (strings.TrimRightFunc s f) = true -> occurs c s = true.
Proof. unfold strings.TrimRightFunc. apply occurs_stake. Qed.

Lemma occurs_TrimSpace c s :
  occurs c (strings.TrimSpace s) = true -> occurs c s = true.
Proof.
  unfold strings.TrimSpace, strings.TrimFunc. intros H.
  eapply occurs_TrimLeftFunc, occurs_TrimRightFunc, H.
Qed.

(** ** Selector rewriting: [adjustName] *)

(** C4. [adjustName] works on the selector with its leading and trailing
    white space trimmed: when that contains [&], every [&] is replaced by
    the parent scope; otherwise, when it starts with [:], the parent scope
    is prepended with nothing in between.  The trimming is real: of a
    selector padded with ASCII white space, what it works on is what the
    padding surrounds. *)
Theorem adjustName_rewrites (sel parentNode : string) :
  let s := strings.TrimSpace sel in
  (occurs amp s = true ->
   adjustName sel parentNode = substitute amp parentNode s) /\
  (occurs amp s = false ->
   forall rest, s = String.String colon rest ->
   adjustName sel parentNode = parentNode +:+ s) /\
  (forall lead core trail,
      sel = lead +:+ core +:+ trail ->
      allSpace lead = true -> allSpace trail = true ->
      inkBounded core = true ->
      s = core).
Proof.
  intros s. unfold adjustName. fold s.
  change "&"%string with (String.String amp EmptyString).
  rewrite Contains_byte, Replace_byte_all. split; [|split].
  - intros ->. reflexivity.
  - intros -> rest Hs. rewrite Hs. simpl. destruct rest; reflexivity.
  - intros lead core trail -> Hlead Htrail Hcore. subst s.
    apply TrimSpace_padded; assumption.
Qed.

(** C4 on a selector between spaces, with two parent references, and on a
    pseudo-selector between a tab and a line feed. *)
Lemma adjustName_rewrites_witness :
  adjustName "  &.on > & " ".tab" = ".tab.on > .tab"%string /\
  adjustName
    (String.String (ascii_of_nat 9) ":hover" +:+ newline) ".btn"
  = ".btn:hover"%string.
Proof.
  split.
  - destruct (adjustName_rewrites "  &.on > & " ".tab") as (Hamp & _ & Htrim).
    rewrite (Hamp eq_refl).
    rewrite (Htrim "  "%string "&.on > &"%string " "%string
               eq_refl eq_refl eq_refl eq_refl).
    reflexivity.
  - destruct (adjustName_rewrites
                (String.String (ascii_of_nat 9) ":hover" +:+ newline) ".btn")
      as (_ & Hcolon & Htrim).
    rewrite (Hcolon eq_refl "hover"%string eq_refl).
    rewrite (Htrim (String.String (ascii_of_nat 9) EmptyString)
               ":hover"%string newline eq_refl eq_refl eq_refl eq_refl).
    reflexivity.
Defined.

Example adjustName_pseudo : adjustName ":hover" ".btn" = ".btn:hover"%string.
Proof. reflexivity. Qed.

Example adjustName_focus : adjustName ":focus" ".input" = ".input:focus"%string.
Proof. reflexivity. Qed.

Example adjustName_parent_hover :
  adjustName "&:hover" ".btn" = ".btn:hover"%string.
Proof. reflexivity. Qed.

Example adjustName_parent_child :
  adjustName "& .child" ".card" = ".card .child"%string.
Proof. reflexivity. Qed.

Example adjustName_parent_twice :
  adjustName "& > &" ".x" = ".x > .x"%string.
Proof. reflexivity. Qed.

Example adjustName_trims :
  adjustName "  &.on  " ".tab" = ".tab.on"%string.
Proof. reflexivity. Qed.

(** A selector whose trimmed form has neither marker is returned
    trimmed. *)
Lemma adjustName_unmarked (sel parentNode : string) :
  occurs amp (strings.TrimSpace sel) = false ->
  strings.HasPrefix (strings.TrimSpace sel) ":" = false ->
  adjustName sel parentNode = strings.TrimSpace sel.
Proof.
  intros Hamp Hcolon. unfold adjustName.
  change "&"%string with (String.String amp EmptyString).
  rewrite Contains_byte, Hamp, Hcolon. reflexivity.
Qed.

(** C5, as the code has it. A selector that contains no [&] and, once
    trimmed, does not start with [:] is returned trimmed of its leading
    and trailing white space, whatever the parent scope. *)
Theorem adjustName_plain (sel parentNode : string) :
  occurs amp sel = false ->
  strings.HasPrefix (strings.TrimSpace sel) ":" = false ->
  adjustName sel parentNode = strings.TrimSpace sel.
Proof.
  intros Hamp Hcolon. apply adjustName_unmarked; [|assumption].
  destruct (occurs amp (strings.TrimSpace sel)) eqn:E; [|reflexivity].
  apply occurs_TrimSpace in E. congruence.
Qed.

Lemma adjustName_plain_witness :
  adjustName " .card .title " ".btn" = ".card .title"%string.
Proof. apply (adjustName_plain " .card .title " ".btn"); reflexivity. Defined.

(** On a selector that carries no surrounding white space the rewriting
    is the identity. *)
Corollary adjustName_plain_trimmed (sel parentNode : string) :
  strings.TrimSpace sel = sel ->
  occurs amp sel = false ->
  strings.HasPrefix sel ":" = false ->
  adjustName sel parentNode = sel.
Proof.
  intros Ht Hamp Hcolon. rewrite <- Ht at 2.
  apply adjustName_unmarked; rewrite Ht; assumption.
Qed.

(** C5, as stated, fails: a plain selector with a leading space is not
    returned unchanged. *)
Lemma adjustName_plain_not_identity :
  occurs amp " a" = false /\
  strings.HasPrefix " a" ":" = false /\
  adjustName " a" ".btn" = "a"%string /\
  adjustName " a" ".btn" <> " a"%string.
Proof. repeat split; try reflexivity. discriminate. Qed.

(** A selector with white space before its [:] has no leading [:], and
    still gets the parent scope. *)
Example adjustName_spaced_pseudo :
  strings.HasPrefix " :hover" ":" = false /\
  adjustName " :hover" ".btn" = ".btn:hover"%string.
Proof. split; reflexivity. Qed.

(** ** Extension lookup: [extend] *)

Lemma rendered_important (prop : bcss.Declaration) :
  bcss.Important prop = true ->
  bcss.StringWithImportant prop (bcss.Important prop) = rendered prop.
Proof.
  intros H. unfold bcss.StringWithImportant, rendered. rewrite H. simpl.
  rewrite !append_assoc. reflexivity.
Qed.

Lemma rendered_plain (prop : bcss.Declaration) :
  bcss.Important prop = false -> bcss.String prop = rendered prop.
Proof.
  intros H. unfold bcss.String, bcss.StringWithImportant, rendered.
  rewrite H. simpl. rewrite !append_assoc. reflexivity.
Qed.

(** The importance marker tells an important declaration from a plain
    one of the same property and value. *)
Example rendered_marks_important :
  rendered (bcss.mkDeclaration "color" "red" true)
  = "color: red !important;"%string /\
  rendered (bcss.mkDeclaration "color" "red" false) = "color: red;"%string.
Proof. split; reflexivity. Qed.

Lemma extendDeclarations_spec decls attrs :
  extendDeclarations decls attrs = attrs ++ List.map rendered decls.
Proof.
  revert attrs. induction decls as [|prop decls IH]; intros attrs; simpl.
  - rewrite app_nil_r. reflexivity.
  - destruct (bcss.Important prop) eqn:E; rewrite IH, <- app_assoc; simpl.
    + rewrite <- E at 1. rewrite rendered_important by assumption. reflexivity.
    + rewrite rendered_plain by assumption. reflexivity.
Qed.

Lemma extendRules_skip pre rest item attrs :
  Forall (fun rule => bcss.Prelude rule <> item) pre ->
  extendRules (pre ++ rest) item attrs = extendRules rest item attrs.
Proof.
  induction 1 as [|rule pre Hne _ IH]; simpl; [reflexivity|].
  destruct (String.eqb_spec (bcss.Prelude rule) item); [contradiction|].
  simpl. exact IH.
Qed.

(** C2. On a feed stylesheet whose first rule with prelude [selectorName]
    is [rule], whatever rules come before ([pre], none matching) and after
    ([post], matching or not), [extend] returns the declarations of [rule],
    each rendered with ["!important"] when its flag is set and plainly
    otherwise, joined by line feeds. *)
Theorem extend_first_match (pre post : list bcss.Rule) (rule : bcss.Rule)
    (selectorName : string) :
  Forall (fun before => bcss.Prelude before <> selectorName) pre ->
  bcss.Prelude rule = selectorName ->
  extend (Some (bcss.mkStylesheet (pre ++ rule :: post))) selectorName
  = strings.Join (List.map rendered (bcss.Declarations rule)) newline.
Proof.
  intros Hpre Hrule. unfold extend. cbn [bcss.Stylesheet_Rules].
  rewrite extendRules_skip by assumption. cbn [extendRules].
  rewrite Hrule, String.eqb_refl. cbn [negb].
  rewrite extendDeclarations_spec. reflexivity.
Qed.

(** C3. [extend] returns the empty string when there is no feed
    stylesheet, and when no top-level rule of it has the prelude asked
    for. *)
Theorem extend_empty (selectorName : string) :
  extend None selectorName = EmptyString /\
  forall sheet,
    Forall (fun rule => bcss.Prelude rule <> selectorName)
      (bcss.Stylesheet_Rules sheet) ->
    extend (Some sheet) selectorName = EmptyString.
Proof.
  split; [reflexivity|]. intros [rules] H. unfold extend.
  cbn [bcss.Stylesheet_Rules] in *.
  rewrite <- (app_nil_r rules), extendRules_skip by assumption.
  reflexivity.
Qed.

(** ** Selector rewriting over a rule tree: [morphRule] *)

(** The index loop rewrites every selector, in place and in order. *)
Lemma adjustSelectors_app (done pending : list string) (parentNode : string) :
  adjustSelectors (length done) pending (done ++ pending) parentNode
  = done ++ List.map (fun sel => adjustName sel parentNode) pending.
Proof.
  revert done. induction pending as [|sel rest IH]; intros done; simpl.
  - reflexivity.
  - rewrite insert_app_r_alt by lia. rewrite Nat.sub_diag. simpl.
    specialize (IH (done ++ [adjustName sel parentNode])).
    rewrite length_app, Nat.add_1_r, <- !app_assoc in IH. exact IH.
Qed.

Lemma adjustSelectors_map (sels : list string) (parentNode : string) :
  adjustSelectors O sels sels parentNode
  = List.map (fun sel => adjustName sel parentNode) sels.
Proof. apply (adjustSelectors_app [] sels parentNode). Qed.

(** One level of [morphRule]. *)
Lemma morphRule_unfold (base : bcss.Rule) (parentNode : string) :
  morphRule base parentNode
  = bcss.mkRule (bcss.Kind base) (bcss.Name base) (bcss.Prelude base)
      (List.map (fun sel => adjustName sel parentNode) (bcss.Selectors base))
      (bcss.Declarations base)
      (List.map (morphNested parentNode) (bcss.Rules base))
      (bcss.EmbedLevel base).
Proof.
  destruct base as [kind name prelude sels decls rules level].
  cbn [morphRule bcss.Kind bcss.Name bcss.Prelude bcss.Selectors
       bcss.Declarations bcss.Rules bcss.EmbedLevel].
  rewrite adjustSelectors_map. f_equal.
  apply List.map_ext. intros rule. unfold morphNested, isAtRule.
  rewrite adjustSelectors_map. reflexivity.
Qed.

Lemma morphNested_Selectors (parentNode : string) (rule : bcss.Rule) :
  bcss.Selectors (morphNested parentNode rule)
  = List.map (fun sel => adjustName sel parentNode) (bcss.Selectors rule).
Proof.
  unfold morphNested. destruct (isAtRule rule); [|reflexivity].
  rewrite morphRule_unfold. reflexivity.
Qed.

Lemma reach_setSelectors (rule : bcss.Rule) (sels : list string) i rest :
  reach (setSelectors rule sels) (i :: rest) = reach rule (i :: rest).
Proof. reflexivity. Qed.

(** C7. Follow any path down a parsed rule tree to a rule [target].
    When every rule strictly between the top-level rule and [target] is
    an at-rule - so for the top-level rule itself, for the rules nested in
    it, and for what at-rules nest to any depth - the selectors of
    [target] are all rewritten by [adjustName]; the rules nested directly
    in the rule [morphRule] works on get that whether they are at-rules
    or not.  When some rule on the way is not an at-rule, [morphRule] does
    not descend into it: [target] is left as it was. *)
Theorem morphRule_reach (parentNode : string) (path : list nat)
    (base target : bcss.Rule) :
  reach base path = Some target ->
  if throughAtRules base path
  then exists target',
         reach (morphRule base parentNode) path = Some target' /\
         bcss.Selectors target'
         = List.map (fun sel => adjustName sel parentNode)
             (bcss.Selectors target)
  else reach (morphRule base parentNode) path = Some target.
Proof.
  revert base. induction path as [|i rest IH]; intros base Hreach.
  - cbn in *. injection Hreach as <-. eexists. split; [reflexivity|].
    rewrite morphRule_unfold. reflexivity.
  - cbn [reach] in Hreach.
    destruct (nth_error (bcss.Rules base) i) as [nested|] eqn:Hi;
      [|discriminate].
    assert (reach (morphRule base parentNode) (i :: rest)
            = reach (morphNested parentNode nested) rest) as Hstep.
    { rewrite morphRule_unfold. cbn [reach bcss.Rules].
      rewrite nth_error_map, Hi. reflexivity. }
    rewrite Hstep. cbn [throughAtRules]. destruct rest as [|j rest].
    + cbn in Hreach. injection Hreach as <-. eexists.
      split; [reflexivity|]. apply morphNested_Selectors.
    + rewrite Hi. unfold morphNested.
      destruct (isAtRule nested); cbn [andb].
      * apply IH, Hreach.
      * rewrite reach_setSelectors. exact Hreach.
Qed.

Lemma morphRule_reach_witness :
  exists target',
    reach (morphRule Sample.media ".p") [1%nat; 0%nat] = Some target' /\
    bcss.Selectors target' = [".p:hover"%string].
Proof.
  exact (morphRule_reach ".p" [1%nat; 0%nat] Sample.media
           (Sample.qualified ":hover" []) eq_refl).
Defined.

(** The rule nested under a rule that is not an at-rule keeps its
    selector, parent reference and all. *)
Example morphRule_no_descent :
  reach (morphRule Sample.media ".p") [2%nat; 0%nat]
  = Some (Sample.qualified "&.inner" []).
Proof. reflexivity. Qed.

(** [morphRule] writes the [Selectors] fields and nothing else. *)
Lemma eraseSelectors_setSelectors rule sels :
  eraseSelectors (setSelectors rule sels) = eraseSelectors rule.
Proof. destruct rule; reflexivity. Qed.

Lemma eraseSelectors_morphRule (parentNode : string) (base : bcss.Rule) :
  eraseSelectors (morphRule base parentNode) = eraseSelectors base.
Proof.
  induction base as [kind name prelude sels decls rules level IH]
    using Rule_nested_ind.
  rewrite morphRule_unfold.
  cbn [eraseSelectors bcss.Kind bcss.Name bcss.Prelude bcss.Selectors
       bcss.Declarations bcss.Rules bcss.EmbedLevel].
  f_equal. rewrite List.map_map.
  induction IH as [|rule rules Hrule _ IHrules]; [reflexivity|].
  cbn [List.map]. rewrite IHrules. f_equal.
  unfold morphNested. destruct (isAtRule rule); [exact Hrule|].
  apply eraseSelectors_setSelectors.
Qed.

Lemma eraseSelectors_Prelude rule :
  bcss.Prelude (eraseSelectors rule) = bcss.Prelude rule.
Proof. destruct rule; reflexivity. Qed.

Lemma eraseSelectors_Declarations rule :
  bcss.Declarations (eraseSelectors rule) = bcss.Declarations rule.
Proof. destruct rule; reflexivity. Qed.

(** [extend] reads preludes and declarations only. *)
Lemma extendRules_erase (rules rules' : list bcss.Rule) item attrs :
  List.map eraseSelectors rules = List.map eraseSelectors rules' ->
  extendRules rules item attrs = extendRules rules' item attrs.
Proof.
  revert rules'. induction rules as [|rule rules IH];
    intros [|rule' rules'] H; try discriminate; [reflexivity|].
  cbn [List.map] in H. injection H as Hrule Hrules.
  cbn [extendRules].
  rewrite <- (eraseSelectors_Prelude rule), <- (eraseSelectors_Prelude rule'),
    <- (eraseSelectors_Declarations rule),
    <- (eraseSelectors_Declarations rule'), Hrule.
  rewrite (IH _ Hrules). reflexivity.
Qed.

(** ** Rendering: [Stylesheet] *)

Section Rendering.

Context {Template Binding Error : Type}.
Variable Execute : Template -> (string -> string) -> Binding -> Error + string.
Variable Parse : string -> Error + bcss.Stylesheet.

Local Abbreviation run := (Stylesheet Execute Parse).
Local Abbreviation St := (State Template).
Local Abbreviation Res := (Outcome Error bcss.Stylesheet).

Implicit Types (st : St) (r : ptr) (a : nat) (this : Rule Template)
  (fuel : nat) (bind : Binding) (parentNode : string).

(** [Stylesheet] by stages: the call is logged, the receiver is
    dereferenced, the feed block runs, then the loop over [depends], then
    the tail; a stage that does not succeed ends the call with its
    outcome and its state. *)
Lemma Stylesheet_stages fuel r bind parentNode st :
  run (S fuel) r bind parentNode st =
  let st0 := mkState (heap st) (calls st ++ [r]) in
  match r with
  | None => (Panic, st0)
  | Some a =>
    match heap st !! a with
    | None => (Panic, st0)
    | Some this =>
      match feedBlock (fun rule => run fuel rule bind parentNode) a this st0
      with
      | (Ok _, st1) =>
        match dependsLoop (fun rule => run fuel rule bind parentNode)
                (depends this) [] st1 with
        | (Ok rules, st2) =>
          (finish Execute Parse this (styleAt a st2) bind parentNode rules,
           st2)
        | (Err err, st2) => (Err err, st2)
        | (Panic, st2) => (Panic, st2)
        | (OutOfFuel, st2) => (OutOfFuel, st2)
        end
      | (Err err, st1) => (Err err, st1)
      | (Panic, st1) => (Panic, st1)
      | (OutOfFuel, st1) => (OutOfFuel, st1)
      end
    end
  end.
Proof.
  cbn [Stylesheet]. unfold mbind at 1 2. unfold logCall, deref.
  cbn [heap calls]. destruct r as [a|]; [|reflexivity].
  destruct (heap st !! a) as [this|]; [|reflexivity].
  unfold mbind at 1.
  destruct (feedBlock _ a this _) as [[[]|err| |] st1]; try reflexivity.
  unfold mbind at 1.
  destruct (dependsLoop _ (depends this) [] st1) as [[rules|err| |] st2];
    try reflexivity.
  unfold mbind, getFeedStyle, try, ret, finish, styleAt.
  destruct (Execute _ _ _) as [err|content]; [reflexivity|].
  destruct (Parse content); reflexivity.
Qed.

(** The loop over [depends] appends, in order, the rules of each entry's
    resolved stylesheet. *)
Lemma dependsLoop_resolveAll (call : ptr -> M Template Error bcss.Stylesheet)
    (rs : list ptr) (acc : list bcss.Rule) st :
  dependsLoop call rs acc st =
  match resolveAll call rs st with
  | (Ok sheets, st') =>
    (Ok (acc ++ concat (List.map bcss.Stylesheet_Rules sheets)), st')
  | (Err err, st') => (Err err, st')
  | (Panic, st') => (Panic, st')
  | (OutOfFuel, st') => (OutOfFuel, st')
  end.
Proof.
  revert acc st. induction rs as [|rule rest IH]; intros acc st.
  - cbn. rewrite app_nil_r. reflexivity.
  - cbn [dependsLoop resolveAll]. unfold mbind.
    destruct (call rule st) as [[sheet|err| |] st1]; try reflexivity.
    rewrite IH.
    destruct (resolveAll call rest st1) as [[sheets|err| |] st2];
      try reflexivity.
    cbn. rewrite <- app_assoc. reflexivity.
Qed.


(** *** The recursion budget

    A call that answers within a budget gives the same answer within any
    larger one. *)

Lemma feedBlock_mono (call call' : ptr -> M Template Error bcss.Stylesheet) :
  (forall r st out st',
      call r st = (out, st') -> out <> OutOfFuel -> call' r st = (out, st')) ->
  forall a this st out st',
    feedBlock call a this st = (out, st') -> out <> OutOfFuel ->
    feedBlock call' a this st = (out, st').
Proof.
  intros Hcall a this st out st'. unfold feedBlock.
  destruct (feed this) as [f|]; [|auto]. unfold mbind.
  destruct (call (Some f) st) as [o st1] eqn:E. intros H Hout.
  rewrite (Hcall _ _ _ _ E); [exact H|].
  destruct o; try discriminate. congruence.
Qed.

Lemma dependsLoop_mono (call call' : ptr -> M Template Error bcss.Stylesheet) :
  (forall r st out st',
      call r st = (out, st') -> out <> OutOfFuel -> call' r st = (out, st')) ->
  forall rs acc st out st',
    dependsLoop call rs acc st = (out, st') -> out <> OutOfFuel ->
    dependsLoop call' rs acc st = (out, st').
Proof.
  intros Hcall rs. induction rs as [|rule rest IH]; intros acc st out st';
    cbn [dependsLoop]; [auto|].
  unfold mbind. destruct (call rule st) as [o st1] eqn:E. intros H Hout.
  rewrite (Hcall _ _ _ _ E).
  - destruct o; auto.
  - destruct o; try discriminate. congruence.
Qed.

Lemma Stylesheet_fuel_S fuel bind parentNode :
  forall r st out st',
    run fuel r bind parentNode st = (out, st') -> out <> OutOfFuel ->
    run (S fuel) r bind parentNode st = (out, st').
Proof.
  induction fuel as [|fuel IH]; intros r st out st' H Hout.
  - cbn in H. unfold outOfFuel in H. congruence.
  - rewrite Stylesheet_stages in H. rewrite Stylesheet_stages.
    cbv zeta in *. destruct r as [a|]; [|exact H].
    destruct (heap st !! a) as [this|]; [|exact H].
    destruct (feedBlock (fun rule => run fuel rule bind parentNode) a this _)
      as [o1 st1] eqn:E1.
    assert (o1 <> OutOfFuel) as Ho1.
    { intros ->. congruence. }
    rewrite (feedBlock_mono (fun rule => run fuel rule bind parentNode)
               (fun rule => run (S fuel) rule bind parentNode)
               IH _ _ _ _ _ E1 Ho1).
    destruct o1 as [[]|err| |]; try exact H.
    destruct (dependsLoop (fun rule => run fuel rule bind parentNode)
                (depends this) [] st1) as [o2 st2] eqn:E2.
    assert (o2 <> OutOfFuel) as Ho2.
    { intros ->. congruence. }
    rewrite (dependsLoop_mono (fun rule => run fuel rule bind parentNode)
               (fun rule => run (S fuel) rule bind parentNode)
               IH _ _ _ _ _ E2 Ho2). exact H.
Qed.

Lemma Stylesheet_fuel_le fuel fuel' bind parentNode r st out st' :
  run fuel r bind parentNode st = (out, st') -> out <> OutOfFuel ->
  (fuel <= fuel')%nat ->
  run fuel' r bind parentNode st = (out, st').
Proof.
  intros H Hout Hle. induction Hle as [|fuel' _ IH]; [exact H|].
  apply Stylesheet_fuel_S; assumption.
Qed.

(** *** What a call writes

    A call writes [feedStyle] fields only, and - pointers leading to
    earlier rules - only in rules up to the one it is made on. *)

Lemma frozen_alter (a : nat) (sheet : bcss.Stylesheet)
    (h : list (Rule Template)) :
  List.map frozen
    (alter (fun o => mkRule (template o) (feed o) (Some sheet) (depends o)) a h)
  = List.map frozen h.
Proof.
  revert a. induction h as [|o h IH]; intros [|a]; cbn; try reflexivity.
  f_equal. apply IH.
Qed.

Lemma frozen_lookup (h h' : list (Rule Template)) a this :
  List.map frozen h' = List.map frozen h ->
  h !! a = Some this ->
  exists this', h' !! a = Some this' /\ frozen this' = frozen this.
Proof.
  intros Hfr Ha.
  assert (List.map frozen h !! a = Some (frozen this)) as Hm.
  { change (List.map frozen h) with (frozen <$> h).
    rewrite list_lookup_fmap, Ha. reflexivity. }
  rewrite <- Hfr in Hm. change (List.map frozen h') with (frozen <$> h') in Hm.
  rewrite list_lookup_fmap in Hm.
  destruct (h' !! a) as [this'|]; [|discriminate].
  exists this'. split; [reflexivity|]. cbn in Hm. congruence.
Qed.

Lemma ordered_frozen (h h' : list (Rule Template)) :
  List.map frozen h' = List.map frozen h -> ordered h -> ordered h'.
Proof.
  intros Hfr Hord a this' Ha.
  destruct (frozen_lookup h' h a this' (eq_sym Hfr) Ha) as (this & Hthis & Heq).
  destruct (Hord a this Hthis) as [Hfeed Hdep].
  unfold frozen in Heq. injection Heq as Ht Hf Hd.
  rewrite <- Hf, <- Hd. split; assumption.
Qed.

Lemma framed_refl n st : framed n st st.
Proof. split; auto. Qed.

Lemma framed_trans n st1 st2 st3 :
  framed n st1 st2 -> framed n st2 st3 -> framed n st1 st3.
Proof.
  intros [F1 L1] [F2 L2]. split; [congruence|].
  intros Hord x Hx. rewrite L2, L1; auto.
  eapply ordered_frozen; eassumption.
Qed.

Lemma framed_le n m st st' : (n <= m)%nat -> framed n st st' -> framed m st st'.
Proof. intros Hle [F L]. split; [exact F|]. intros Hord x Hx. apply L; [assumption|lia]. Qed.

Lemma framed_setFeedStyle a sheet st :
  framed (S a) st (snd (setFeedStyle (Error := Error) a sheet st)).
Proof.
  split; cbn.
  - apply frozen_alter.
  - intros _ x Hx. apply list_lookup_alter_ne. lia.
Qed.

Lemma Stylesheet_framed fuel bind parentNode :
  forall r st out st',
    run fuel r bind parentNode st = (out, st') -> framed (bound r) st st'.
Proof.
  induction fuel as [|fuel IH]; intros r st out st' H.
  - cbn in H. unfold outOfFuel in H. injection H as _ <-. apply framed_refl.
  - rewrite Stylesheet_stages in H. cbv zeta in H.
    set (st0 := mkState (heap st) (calls st ++ [r])) in *.
    assert (framed (bound r) st st0) as F0 by (split; auto).
    destruct r as [a|]; [|injection H as _ <-; exact F0].
    destruct (heap st !! a) as [this|] eqn:Ha;
      [|injection H as _ <-; exact F0].
    (* the feed block *)
    assert (forall o1 st1,
               feedBlock (fun rule => run fuel rule bind parentNode) a this st0
               = (o1, st1) -> framed (S a) st0 st1) as Ffeed.
    { intros o1 st1. unfold feedBlock.
      destruct (feed this) as [f|] eqn:Hf.
      - unfold mbind.
        destruct (run fuel (Some f) bind parentNode st0) as [o st1'] eqn:E.
        specialize (IH _ _ _ _ E). cbn [bound] in IH.
        assert (framed (S a) st0 st1') as F1.
        { destruct IH as [F L]. split; [exact F|]. intros Hord x Hx.
          apply L; [assumption|].
          destruct (Hord a this Ha) as [Hlt _]. specialize (Hlt f Hf). lia. }
        destruct o; intros E'; injection E' as _ <-; try exact F1.
        eapply framed_trans; [exact F1|]. apply framed_setFeedStyle.
      - intros E. injection E as _ <-. apply framed_refl. }
    (* the loop over depends *)
    assert (forall rs acc st1 o2 st2,
               Forall (fun rule : ptr => forall d, rule = Some d -> (d < a)%nat) rs ->
               dependsLoop (fun rule => run fuel rule bind parentNode) rs acc st1
               = (o2, st2) -> framed a st1 st2) as Fdep.
    { induction rs as [|rule rest IHrs]; intros acc st1 o2 st2 Hlt; cbn [dependsLoop].
      - intros E. injection E as _ <-. apply framed_refl.
      - unfold mbind.
        destruct (run fuel rule bind parentNode st1) as [o st1'] eqn:E.
        specialize (IH _ _ _ _ E).
        assert (framed a st1 st1') as F1.
        { apply (framed_le (bound rule)); [|exact IH].
          destruct rule as [d|]; cbn; [|lia].
          apply Forall_cons in Hlt as [Hd _]. specialize (Hd d eq_refl). lia. }
        apply Forall_cons in Hlt as [_ Hrest].
        destruct o; intros E'; try (injection E' as _ <-; exact F1).
        eapply framed_trans; [exact F1|]. eapply IHrs; eassumption. }
    destruct (feedBlock _ a this st0) as [o1 st1] eqn:E1.
    specialize (Ffeed _ _ eq_refl).
    assert (framed (S a) st st1) as F1 by exact (framed_trans _ _ _ _ F0 Ffeed).
    destruct o1 as [[]|err| |]; try (injection H as _ <-; exact F1).
    destruct (dependsLoop _ (depends this) [] st1) as [o2 st2] eqn:E2.
    assert (framed (S a) st st2) as F2.
    { destruct F1 as [Fr1 L1]. split.
      - specialize (ordered_frozen _ _ Fr1) as Hord1.
        destruct (frozen_lookup _ _ _ _ Fr1 Ha) as (this1 & Ha1 & Heq).
        assert (List.map frozen (heap st2) = List.map frozen (heap st1)) as Fr2.
        { clear -IH E2. revert E2. generalize (@nil bcss.Rule) as acc.
          revert st1. induction (depends this) as [|rule rest IHrs];
            intros st1 acc; cbn [dependsLoop].
          - intros E. injection E as _ <-. reflexivity.
          - unfold mbind.
            destruct (run fuel rule bind parentNode st1) as [o st1'] eqn:E.
            destruct (IH _ _ _ _ E) as [Fr _].
            destruct o; intros E'; try (injection E' as _ <-; exact Fr).
            rewrite (IHrs _ _ E'). exact Fr. }
        congruence.
      - intros Hord x Hx.
        assert (ordered (heap st1)) as Hord1
          by (eapply ordered_frozen; [exact Fr1|exact Hord]).
        destruct (Hord a this Ha) as [_ Hdeps].
        destruct (Fdep _ _ _ _ _ Hdeps E2) as [_ L2].
        rewrite L2, L1; auto. lia. }
    destruct o2; injection H as _ <-; exact F2.
Qed.


Lemma Stylesheet_ordered fuel r bind parentNode st :
  ordered (heap st) ->
  ordered (heap (snd (run fuel r bind parentNode st))).
Proof.
  intros Hord.
  destruct (run fuel r bind parentNode st) as [out st'] eqn:E.
  destruct (Stylesheet_framed _ _ _ _ _ _ _ E) as [Fr _].
  eapply ordered_frozen; eassumption.
Qed.

Lemma ordered_nil : ordered (@nil (Rule Template)).
Proof. intros a this Ha. discriminate. Qed.

(** Within a budget above the address called, a call answers: pointers
    lead to earlier rules, so the recursion ends. *)
Lemma Stylesheet_answers fuel bind parentNode :
  forall r st out st',
    ordered (heap st) -> (bound r < fuel)%nat ->
    run fuel r bind parentNode st = (out, st') -> out <> OutOfFuel.
Proof.
  induction fuel as [|fuel IH]; intros r st out st' Hord Hfuel H; [lia|].
  rewrite Stylesheet_stages in H. cbv zeta in H.
  set (st0 := mkState (heap st) (calls st ++ [r])) in *.
  destruct r as [a|]; [|congruence].
  destruct (heap st !! a) as [this|] eqn:Ha; [|congruence].
  destruct (Hord a this Ha) as [Hfeed Hdeps]. cbn [bound] in Hfuel.
  assert (ordered (heap st0)) as Hord0 by exact Hord.
  destruct (feedBlock _ a this st0) as [o1 st1] eqn:E1.
  assert (o1 <> OutOfFuel /\ ordered (heap st1)) as [Ho1 Hord1].
  { revert E1. unfold feedBlock. destruct (feed this) as [f|] eqn:Hf.
    - unfold mbind.
      destruct (run fuel (Some f) bind parentNode st0) as [o st1'] eqn:E.
      specialize (Hfeed f eq_refl).
      assert (o <> OutOfFuel) as Ho
        by (eapply (IH (Some f) _ _ _ Hord0); [cbn; lia|exact E]).
      destruct (Stylesheet_framed _ _ _ _ _ _ _ E) as [Fr _].
      assert (ordered (heap st1')) as Hord1'
        by (eapply ordered_frozen; eassumption).
      destruct o; intros E'; injection E' as <- <-;
        try (split; [congruence|exact Hord1']).
      split; [discriminate|]. eapply ordered_frozen; [|exact Hord1'].
      apply frozen_alter.
    - intros E. injection E as <- <-. split; [discriminate|exact Hord0]. }
  destruct o1 as [[]|err| |]; try congruence.
  destruct (dependsLoop _ (depends this) [] st1) as [o2 st2] eqn:E2.
  assert (o2 <> OutOfFuel) as Ho2.
  { clear H E1. revert E2 Hord1. generalize (@nil bcss.Rule) as acc. revert st1.
    induction Hdeps as [|rule rest Hrule _ IHrs]; intros st1 acc;
      cbn [dependsLoop].
    - intros E _. injection E as <- _. discriminate.
    - unfold mbind.
      destruct (run fuel rule bind parentNode st1) as [o st1'] eqn:E.
      intros E' Hord1.
      assert (o <> OutOfFuel) as Ho.
      { eapply (IH rule _ _ _ Hord1); [|exact E].
        destruct rule as [d|]; cbn; [|lia]. specialize (Hrule d eq_refl). lia. }
      destruct (Stylesheet_framed _ _ _ _ _ _ _ E) as [Fr _].
      destruct o; try (injection E' as <- _; congruence).
      eapply IHrs; [exact E'|]. eapply ordered_frozen; eassumption. }
  destruct o2 as [rules|err| |]; try congruence.
  injection H as <- _. unfold finish.
  destruct (Execute _ _ _); [discriminate|].
  destruct (Parse _); discriminate.
Qed.

(** [New] keeps pointers leading to earlier rules: its arguments are
    rules that exist already. *)
Lemma New_ordered (ParseTemplate : string -> Error + Template)
    (rules : string) (extension : ptr) (rs : list ptr) st r st' :
  ordered (heap st) ->
  (forall f, extension = Some f -> (f < length (heap st))%nat) ->
  Forall (fun rule : ptr => forall d, rule = Some d -> (d < length (heap st))%nat)
    rs ->
  New ParseTemplate rules extension rs st = (Ok r, st') ->
  r = Some (length (heap st)) /\ ordered (heap st').
Proof.
  intros Hord Hext Hrs. unfold New.
  destruct (ParseTemplate rules) as [err|tmp]; [discriminate|].
  intros H. injection H as <- <-. split; [reflexivity|].
  intros a this Ha. cbn [heap] in Ha.
  destruct (Nat.lt_ge_cases a (length (heap st))) as [Hlt|Hge].
  - rewrite lookup_app_l in Ha by assumption. exact (Hord a this Ha).
  - rewrite lookup_app_r in Ha by assumption.
    destruct (a - length (heap st))%nat as [|k] eqn:Hk; [|discriminate].
    cbn in Ha. injection Ha as <-. cbn [feed depends].
    assert (a = length (heap st)) as -> by lia. split; assumption.
Qed.

(** *** The parent scope and the feed

    The parent scope reaches the [Selectors] fields only: two calls that
    differ in it run alike and leave states that differ there at most. *)

Lemma extend_sameButSelectors (style style' : option bcss.Stylesheet) :
  option_Forall2 sameButSelectors style style' -> extend style = extend style'.
Proof.
  intros H. apply functional_extensionality. intros item.
  destruct H as [s s' H|]; [|reflexivity]. unfold extend.
  rewrite (extendRules_erase _ _ item [] H). reflexivity.
Qed.

Lemma similar_log st st' r :
  similar st st' ->
  similar (mkState (heap st) (calls st ++ [r]))
          (mkState (heap st') (calls st' ++ [r])).
Proof. intros [Hc Hh]. split; cbn; [congruence|exact Hh]. Qed.

Lemma similar_setFeedStyle a sheet sheet' st st' :
  similar st st' -> sameButSelectors sheet sheet' ->
  similar (snd (setFeedStyle (Error := Error) a sheet st))
          (snd (setFeedStyle (Error := Error) a sheet' st')).
Proof.
  intros [Hc Hh] Hs. split; cbn; [exact Hc|].
  apply Forall2_alter; [exact Hh|].
  intros o o' _ _ [Hfr _]. split.
  - unfold frozen in *. cbn. exact Hfr.
  - cbn. constructor. exact Hs.
Qed.

Lemma similar_styleAt a st st' :
  similar st st' ->
  option_Forall2 sameButSelectors (styleAt a st) (styleAt a st').
Proof.
  intros [_ Hh]. unfold styleAt.
  apply Forall2_lookup with (i := a) in Hh.
  destruct Hh as [o o' [_ Hs]|]; [exact Hs|constructor].
Qed.

Lemma finish_similar this this' style style' bind parentNode parentNode'
    rules rules' :
  template this = template this' ->
  option_Forall2 sameButSelectors style style' ->
  List.map eraseSelectors rules = List.map eraseSelectors rules' ->
  sameOutcome sameButSelectors
    (finish Execute Parse this style bind parentNode rules)
    (finish Execute Parse this' style' bind parentNode' rules').
Proof.
  intros Ht Hs Hr. unfold finish.
  rewrite (extend_sameButSelectors _ _ Hs), Ht.
  destruct (Execute _ _ _) as [err|content]; [reflexivity|].
  destruct (Parse content) as [err|parsed]; [reflexivity|].
  cbn. unfold sameButSelectors. cbn.
  rewrite !List.map_app, !List.map_map, Hr. f_equal.
  apply List.map_ext. intros rule. rewrite !eraseSelectors_morphRule.
  reflexivity.
Qed.

Lemma Stylesheet_similar fuel bind parentNode parentNode' :
  forall r st st',
    similar st st' ->
    sameOutcome sameButSelectors
      (fst (run fuel r bind parentNode st))
      (fst (run fuel r bind parentNode' st')) /\
    similar (snd (run fuel r bind parentNode st))
            (snd (run fuel r bind parentNode' st')).
Proof.
  induction fuel as [|fuel IH]; intros r st st' Hsim.
  - cbn. split; [exact I|exact Hsim].
  - rewrite !Stylesheet_stages. cbv zeta.
    pose proof (similar_log _ _ r Hsim) as Hsim0.
    set (st0 := mkState (heap st) (calls st ++ [r])) in *.
    set (st0' := mkState (heap st') (calls st' ++ [r])) in *.
    destruct r as [a|]; [|split; [exact I|exact Hsim0]].
    destruct Hsim as [_ Hh].
    pose proof (proj1 (Forall2_lookup _ _ _) Hh a) as Ha.
    destruct Ha as [this this' [Hfr _]|]; [|split; [exact I|exact Hsim0]].
    unfold frozen in Hfr. injection Hfr as Ht Hf Hd.
    (* the feed block *)
    assert (sameOutcome (fun _ _ => True)
              (fst (feedBlock (fun rule => run fuel rule bind parentNode)
                      a this st0))
              (fst (feedBlock (fun rule => run fuel rule bind parentNode')
                      a this' st0')) /\
            similar
              (snd (feedBlock (fun rule => run fuel rule bind parentNode)
                      a this st0))
              (snd (feedBlock (fun rule => run fuel rule bind parentNode')
                      a this' st0'))) as [Ho1 Hsim1].
    { unfold feedBlock. rewrite <- Hf.
      destruct (feed this) as [f|]; [|split; [exact I|exact Hsim0]].
      unfold mbind. destruct (IH (Some f) _ _ Hsim0) as [Ho Hs].
      destruct (run fuel (Some f) bind parentNode st0) as [o s1].
      destruct (run fuel (Some f) bind parentNode' st0') as [o' s1'].
      cbn [fst snd] in Ho, Hs.
      destruct o, o'; try contradiction; cbn [fst snd];
        try (split; [assumption|exact Hs]).
      split; [exact I|]. apply similar_setFeedStyle; assumption. }
    destruct (feedBlock _ a this st0) as [o1 st1].
    destruct (feedBlock _ a this' st0') as [o1' st1'].
    cbn [fst snd] in Ho1, Hsim1.
    destruct o1 as [[]|err| |], o1' as [[]|err'| |]; try contradiction;
      try (split; [assumption|exact Hsim1]).
    (* the loop over depends *)
    rewrite <- Hd.
    assert (forall rs acc acc' s s',
               similar s s' ->
               List.map eraseSelectors acc = List.map eraseSelectors acc' ->
               sameOutcome
                 (fun l l' => List.map eraseSelectors l = List.map eraseSelectors l')
                 (fst (dependsLoop (fun rule => run fuel rule bind parentNode)
                         rs acc s))
                 (fst (dependsLoop (fun rule => run fuel rule bind parentNode')
                         rs acc' s')) /\
               similar
                 (snd (dependsLoop (fun rule => run fuel rule bind parentNode)
                         rs acc s))
                 (snd (dependsLoop (fun rule => run fuel rule bind parentNode')
                         rs acc' s'))) as Hloop.
    { induction rs as [|rule rest IHrs]; intros acc acc' s s' Hs Hacc;
        cbn [dependsLoop].
      - split; assumption.
      - unfold mbind. destruct (IH rule _ _ Hs) as [Ho Hs1].
        destruct (run fuel rule bind parentNode s) as [o s1].
        destruct (run fuel rule bind parentNode' s') as [o' s1'].
        cbn [fst snd] in Ho, Hs1.
        destruct o, o'; try contradiction; cbn [fst snd];
          try (split; [assumption|exact Hs1]).
        apply IHrs; [exact Hs1|]. rewrite !List.map_app. f_equal; assumption. }
    destruct (Hloop (depends this) [] [] _ _ Hsim1 eq_refl) as [Ho2 Hsim2].
    destruct (dependsLoop _ (depends this) [] st1) as [o2 st2].
    destruct (dependsLoop _ (depends this) [] st1') as [o2' st2'].
    cbn [fst snd] in Ho2, Hsim2.
    destruct o2 as [rules|err| |], o2' as [rules'|err'| |]; try contradiction;
      cbn [fst snd]; try (split; [assumption|exact Hsim2]).
    split; [|exact Hsim2].
    apply finish_similar; [exact Ht| |exact Ho2]. apply similar_styleAt, Hsim2.
Qed.

Lemma similar_refl (st : St) : similar st st.
Proof.
  split; [reflexivity|]. apply Forall2_lookup. intros i.
  destruct (heap st !! i) as [o|]; constructor.
  split; [reflexivity|]. destruct (feedStyle o); constructor. reflexivity.
Qed.

(** *** The claims on [Stylesheet] *)

(** C1. When the feed block succeeds (there is no feed, or the feed
    resolves), every entry of [depends] resolves (to [sheets], in order),
    the template executes and its output parses (to [parsed]), the call
    returns the stylesheet whose rules are the rules of [sheets] in order,
    followed by the rules of [parsed] as rewritten by [morphRule].  Every
    rule of it is there on account of an entry of [depends] or of the
    rule's own text: the stylesheet of the feed contributes none. *)
Theorem Stylesheet_rule_order fuel a this bind parentNode st st1 sheets st2
    content parsed :
  heap st !! a = Some this ->
  feedBlock (fun rule => run fuel rule bind parentNode) a this
    (mkState (heap st) (calls st ++ [Some a])) = (Ok tt, st1) ->
  resolveAll (fun rule => run fuel rule bind parentNode) (depends this) st1
  = (Ok sheets, st2) ->
  Execute (template this) (extend (styleAt a st2)) bind = inr content ->
  Parse content = inr parsed ->
  let out :=
    concat (List.map bcss.Stylesheet_Rules sheets) ++
    List.map (fun rule => morphRule rule parentNode)
      (bcss.Stylesheet_Rules parsed) in
  run (S fuel) (Some a) bind parentNode st = (Ok (bcss.mkStylesheet out), st2)
  /\
  forall rule, In rule out ->
    (exists sheet, In sheet sheets /\ In rule (bcss.Stylesheet_Rules sheet)) \/
    (exists own, In own (bcss.Stylesheet_Rules parsed) /\
                 rule = morphRule own parentNode).
Proof.
  intros Ha Hfeed Hdeps Hexec Hparse out. split.
  - rewrite Stylesheet_stages. cbv zeta. rewrite Ha. cbv beta iota.
    rewrite Hfeed. cbv beta iota.
    rewrite dependsLoop_resolveAll, Hdeps. unfold finish.
    rewrite Hexec, Hparse. reflexivity.
  - intros rule Hin. apply List.in_app_or in Hin as [Hin|Hin].
    + left. apply List.in_concat in Hin as (rules & Hrules & Hin).
      apply List.in_map_iff in Hrules as (sheet & <- & Hsheet).
      exists sheet. split; assumption.
    + right. apply List.in_map_iff in Hin as (own & <- & Hown).
      exists own. split; [assumption|reflexivity].
Qed.

(** C9. [morphRule] leaves every field but [Selectors] as it was, at
    every depth, the prelude among them; so [extend] finds the same in a
    stylesheet whether its parsed rules were rewritten or not; and
    whatever parent scope a feed is resolved against, [extend] finds the
    same in its stylesheet: the lookup goes by the text as parsed, not as
    rewritten. *)
Theorem extend_reads_unrewritten fuel f bind parentNode st :
  (forall base,
      eraseSelectors (morphRule base parentNode) = eraseSelectors base /\
      bcss.Prelude (morphRule base parentNode) = bcss.Prelude base) /\
  (forall rules parsed item,
      extend (Some (bcss.mkStylesheet
                      (rules ++
                       List.map (fun rule => morphRule rule parentNode) parsed)))
        item
      = extend (Some (bcss.mkStylesheet (rules ++ parsed))) item) /\
  (forall sheet st1,
      run fuel f bind parentNode st = (Ok sheet, st1) ->
      forall parentNode',
      exists sheet' st1',
        run fuel f bind parentNode' st = (Ok sheet', st1') /\
        forall item, extend (Some sheet) item = extend (Some sheet') item).
Proof.
  split; [|split].
  - intros base. split; [apply eraseSelectors_morphRule|].
    rewrite morphRule_unfold. reflexivity.
  - intros rules parsed item. unfold extend. cbn [bcss.Stylesheet_Rules].
    rewrite (extendRules_erase _ (rules ++ parsed) item []); [reflexivity|].
    rewrite !List.map_app, List.map_map. f_equal.
    apply List.map_ext. intros rule. apply eraseSelectors_morphRule.
  - intros sheet st1 H parentNode'.
    destruct (Stylesheet_similar fuel bind parentNode parentNode' f st st
                (similar_refl st)) as [Ho _].
    rewrite H in Ho. cbn [fst] in Ho.
    destruct (run fuel f bind parentNode' st) as [o' st1'].
    cbn [fst] in Ho. destruct o' as [sheet'| | |]; try contradiction.
    exists sheet', st1'. split; [reflexivity|]. intros item.
    assert (option_Forall2 sameButSelectors (Some sheet) (Some sheet')) as Hs
      by (constructor; exact Ho).
    rewrite (extend_sameButSelectors _ _ Hs). reflexivity.
Qed.

(** C6. When, after the feed block, the first entry of [depends] fails
    with [err], the call returns [err] in the state the first entry left:
    the log of invocations ends with those the first entry made, so no
    later entry - whatever it is - was invoked. *)
Theorem Stylesheet_first_depends_fails fuel a this bind parentNode st st1
    first second rest err st2 :
  heap st !! a = Some this ->
  depends this = first :: second :: rest ->
  feedBlock (fun rule => run fuel rule bind parentNode) a this
    (mkState (heap st) (calls st ++ [Some a])) = (Ok tt, st1) ->
  run fuel first bind parentNode st1 = (Err err, st2) ->
  run (S fuel) (Some a) bind parentNode st = (Err err, st2) /\
  calls (snd (run (S fuel) (Some a) bind parentNode st)) = calls st2.
Proof.
  intros Ha Hdeps Hfeed Hfirst.
  assert (run (S fuel) (Some a) bind parentNode st = (Err err, st2)) as H.
  { rewrite Stylesheet_stages. cbv zeta. rewrite Ha. cbv beta iota.
    rewrite Hfeed, Hdeps. cbv beta iota.
    cbn [dependsLoop]. unfold mbind. rewrite Hfirst. reflexivity. }
  rewrite H. split; reflexivity.
Qed.

(** C10. Pointers leading to earlier rules: when the feed of a rule
    resolves to [sheet] and the call on the rule then fails - in an entry
    of [depends], in the execution of the template or in the parsing -
    the field [feedStyle] of the rule holds [sheet] in the state the call
    leaves. *)
Theorem Stylesheet_feedStyle_kept fuel a this f bind parentNode st sheet st1
    err st' :
  ordered (heap st) ->
  heap st !! a = Some this ->
  feed this = Some f ->
  run fuel (Some f) bind parentNode (mkState (heap st) (calls st ++ [Some a]))
  = (Ok sheet, st1) ->
  run (S fuel) (Some a) bind parentNode st = (Err err, st') ->
  styleAt a st' = Some sheet.
Proof.
  intros Hord Ha Hf Hfeed H.
  rewrite Stylesheet_stages in H. cbv zeta in H. rewrite Ha in H.
  cbv beta iota in H.
  unfold feedBlock in H. rewrite Hf in H. unfold mbind at 1 in H.
  rewrite Hfeed in H.
  set (st1' := snd (setFeedStyle (Error := Error) a sheet st1)).
  change (setFeedStyle a sheet st1) with (@Ok Error unit tt, st1') in H.
  cbv beta iota in H.
  destruct (Stylesheet_framed _ _ _ _ _ _ _ Hfeed) as [Fr1 _].
  cbn [heap] in Fr1.
  destruct (frozen_lookup _ _ _ _ Fr1 Ha) as (this1 & Ha1 & Heq1).
  assert (styleAt a st1' = Some sheet) as Hstyle.
  { unfold styleAt, st1'. cbn [setFeedStyle snd heap].
    rewrite list_lookup_alter_eq, Ha1. reflexivity. }
  assert (ordered (heap st1')) as Hord1.
  { eapply ordered_frozen; [|exact Hord]. unfold st1'.
    cbn [setFeedStyle snd heap]. rewrite frozen_alter. exact Fr1. }
  destruct (dependsLoop _ (depends this) [] st1') as [o2 st2] eqn:E2.
  assert (styleAt a st2 = Some sheet) as Hstyle2.
  { rewrite <- Hstyle. unfold styleAt.
    assert (heap st2 !! a = heap st1' !! a) as ->; [|reflexivity].
    destruct (Hord a this Ha) as [_ Hdeps].
    clear H. revert E2 Hord1. generalize (@nil bcss.Rule) as acc.
    generalize st1' as s. clear -Hdeps.
    induction Hdeps as [|rule rest Hrule _ IHrs]; intros s acc;
      cbn [dependsLoop].
    - intros E _. injection E as _ <-. reflexivity.
    - unfold mbind.
      destruct (run fuel rule bind parentNode s) as [o s'] eqn:E.
      intros E' Hords.
      destruct (Stylesheet_framed _ _ _ _ _ _ _ E) as [Fr L].
      assert (heap s' !! a = heap s !! a) as Hsame.
      { apply L; [assumption|].
        destruct rule as [d|]; cbn; [|lia]. specialize (Hrule d eq_refl). lia. }
      destruct o; try (injection E' as _ <-; exact Hsame).
      rewrite <- Hsame. eapply IHrs; [exact E'|].
      eapply ordered_frozen; eassumption. }
  destruct o2; injection H as _ <-; exact Hstyle2.
Qed.

End Rendering.

(** ** The claims at work on the sample rules *)

Local Open Scope string_scope.

(** [ordered] on a heap written out: address by address. *)
Ltac ordered_by_cases :=
  let a := fresh "a" in
  let this := fresh "this" in
  let Ha := fresh "Ha" in
  intros a this Ha;
  repeat (destruct a as [|a];
    [ injection Ha as <-; cbn; split;
      [ let f := fresh "f" in
        let Hf := fresh "Hf" in
        intros f Hf; try discriminate; injection Hf as <-; lia
      | repeat (apply List.Forall_cons;
                [ let d := fresh "d" in
                  let Hd := fresh "Hd" in
                  intros d Hd; injection Hd as <-; lia
                | ]);
        apply List.Forall_nil ]
    | ]);
  discriminate.

(** The sample rules are as [New] builds them, so every call on them
    answers. *)
Lemma sample_ordered : ordered Sample.rules.
Proof. ordered_by_cases. Qed.

(** C1 at rule [3]: its feed is rule [2], its [depends] are rules [0] and
    [1].  The stylesheet returned lists the rules of [0], of [1], then its
    own; the feed's rule [.base] is not among them. *)
Lemma Stylesheet_rule_order_witness :
  exists st',
    Sample.run 2 (Some 3%nat) EmptyString ".btn" Sample.start
    = (Ok (bcss.mkStylesheet
             [ Sample.qualified ".b" [];
               setSelectors (Sample.qualified "&.c" []) [".btn.c"];
               setSelectors (Sample.qualified ":hover" [Sample.red; Sample.wide])
                 [".btn:hover"] ]),
       st') /\
    styleAt 3 st'
    = Some (bcss.mkStylesheet
              [Sample.qualified ".base" [Sample.red; Sample.wide]]).
Proof.
  eexists. split.
  - refine (proj1 (Stylesheet_rule_order Sample.Execute Sample.Parse 1 3
             (mkRule [Sample.Text ":hover{"; Sample.CallExtend ".base";
                      Sample.Text "}"] (Some 2%nat) None
                [Some 0%nat; Some 1%nat])
             EmptyString ".btn" Sample.start
             (snd (feedBlock
                     (fun rule => Sample.run 1 rule EmptyString ".btn") 3
                     (mkRule [Sample.Text ":hover{"; Sample.CallExtend ".base";
                              Sample.Text "}"] (Some 2%nat) None
                        [Some 0%nat; Some 1%nat])
                     (mkState Sample.rules [Some 3%nat])))
             [ bcss.mkStylesheet [Sample.qualified ".b" []];
               bcss.mkStylesheet
                 [setSelectors (Sample.qualified "&.c" []) [".btn.c"]] ]
             (snd (Sample.run 2 (Some 3%nat) EmptyString ".btn" Sample.start))
             (":hover{color: red !important;" +:+ newline +:+ "width: 10px;}")
             (bcss.mkStylesheet
                [Sample.qualified ":hover" [Sample.red; Sample.wide]])
             _ _ _ _ _));
      vm_compute; reflexivity.
  - vm_compute. reflexivity.
Defined.

(** Depends ordering, from the constructor on: [New(tmplA, nil, ruleB,
    ruleC)] renders to the rules of B, then of C, then its own. *)
Example Stylesheet_depends_order :
  let empty := mkState (@nil (Rule Sample.Template)) [] in
  let st1 := snd (New Sample.ParseTemplate ".b{}" None [] empty) in
  let st2 := snd (New Sample.ParseTemplate "&.c{}" None [] st1) in
  let made :=
    New Sample.ParseTemplate ".base{color:red!important;width:10px}" None
      [Some 0%nat; Some 1%nat] st2 in
  fst made = Ok (Some 2%nat) /\
  ordered (heap (snd made)) /\
  fst (Sample.run 2 (Some 2%nat) EmptyString ".btn" (snd made))
  = Ok (bcss.mkStylesheet
          [ Sample.qualified ".b" [];
            setSelectors (Sample.qualified "&.c" []) [".btn.c"];
            Sample.qualified ".base" [Sample.red; Sample.wide] ]).
Proof.
  cbv zeta. split; [reflexivity|]. split; [|vm_compute; reflexivity].
  match goal with
  | |- ordered ?h => let h' := eval vm_compute in h in change (ordered h')
  end.
  ordered_by_cases.
Qed.

(** Feed exclusion: a rule with a feed, no [depends] and a template that
    emits nothing renders to the empty stylesheet. *)
Example Stylesheet_feed_alone :
  fst (Sample.run 2 (Some 1%nat) EmptyString ".btn"
         (mkState
            [ mkRule [Sample.Text ".b{}"] None None [];
              mkRule [] (Some 0%nat) None [] ] []))
  = Ok (bcss.mkStylesheet []).
Proof. vm_compute. reflexivity. Qed.

(** C2 on a feed with two rules [.a]: the declarations of the first
    one, the important one marked, and nothing of the second. *)
Lemma extend_first_match_witness :
  extend (Some Sample.twice) ".a"
  = "color: red !important;" +:+ newline +:+ "width: 10px;".
Proof.
  apply (extend_first_match
           [Sample.qualified ".z" [Sample.wide]]
           [Sample.qualified ".a" [Sample.blue]]
           (Sample.qualified ".a" [Sample.red; Sample.wide]) ".a").
  - repeat constructor. cbn. discriminate.
  - reflexivity.
Defined.

Example extend_no_match : extend (Some Sample.twice) ".none" = EmptyString.
Proof. reflexivity. Qed.

(** C6 at rule [5]: its first [depends] entry, rule [4], fails; rule [0],
    the second entry, is not in the log of invocations. *)
Lemma Stylesheet_first_depends_fails_witness :
  fst (Sample.run 2 (Some 5%nat) EmptyString ".btn" Sample.start)
  = Err "boom" /\
  calls (snd (Sample.run 2 (Some 5%nat) EmptyString ".btn" Sample.start))
  = [Some 5%nat; Some 2%nat; Some 4%nat].
Proof.
  destruct (Stylesheet_first_depends_fails Sample.Execute Sample.Parse 1 5
              (mkRule [Sample.Text ".b{}"] (Some 2%nat) None
                 [Some 4%nat; Some 0%nat])
              EmptyString ".btn" Sample.start
              (snd (feedBlock
                      (fun rule => Sample.run 1 rule EmptyString ".btn") 5
                      (mkRule [Sample.Text ".b{}"] (Some 2%nat) None
                         [Some 4%nat; Some 0%nat])
                      (mkState Sample.rules [Some 5%nat])))
              (Some 4%nat) (Some 0%nat) [] "boom"
              (snd (Sample.run 2 (Some 5%nat) EmptyString ".btn" Sample.start))
              eq_refl eq_refl eq_refl eq_refl) as [H1 H2].
  split.
  - unfold Sample.run. rewrite H1. reflexivity.
  - exact H2.
Defined.

(** C10 at rule [5]: the call fails, and the field [feedStyle] holds the
    stylesheet its feed, rule [2], resolved to. *)
Lemma Stylesheet_feedStyle_kept_witness :
  styleAt 5 (snd (Sample.run 2 (Some 5%nat) EmptyString ".btn" Sample.start))
  = Some (bcss.mkStylesheet
            [Sample.qualified ".base" [Sample.red; Sample.wide]]).
Proof.
  apply (Stylesheet_feedStyle_kept Sample.Execute Sample.Parse 1 5
           (mkRule [Sample.Text ".b{}"] (Some 2%nat) None
              [Some 4%nat; Some 0%nat])
           2 EmptyString ".btn" Sample.start
           (bcss.mkStylesheet
              [Sample.qualified ".base" [Sample.red; Sample.wide]])
           (snd (Sample.run 1 (Some 2%nat) EmptyString ".btn"
                   (mkState Sample.rules [Some 5%nat])))
           "boom").
  - exact sample_ordered.
  - reflexivity.
  - reflexivity.
  - vm_compute. reflexivity.
  - vm_compute. reflexivity.
Defined.

(** C9 on rule [1], resolved against [.btn]: [extend] finds its rule
    under the prelude as written, not under the rewritten selector. *)
Example extend_by_prelude :
  let sheet := bcss.mkStylesheet
                 [setSelectors (Sample.qualified "&.c" [Sample.wide])
                    [".btn.c"]] in
  extend (Some sheet) "&.c" = "width: 10px;" /\
  extend (Some sheet) ".btn.c" = EmptyString.
Proof. split; reflexivity. Qed.


(** * Further properties *)

Local Close Scope string_scope.

(** ** The helpers compose *)

Lemma wrapInt_add_r (a z : Z) : wrapInt (a + wrapInt z) = wrapInt (a + z).
Proof.
  rewrite !wrapInt_mod.
  replace (a + ((z + 2 ^ 63) mod 2 ^ 64 - 2 ^ 63) + 2 ^ 63)
    with (a + (z + 2 ^ 63) mod 2 ^ 64) by lia.
  rewrite Z.add_mod_idemp_r by lia.
  replace (a + (z + 2 ^ 63)) with (a + z + 2 ^ 63) by lia. reflexivity.
Qed.

Lemma wrapInt_sub_r (a z : Z) : wrapInt (wrapInt z - a) = wrapInt (z - a).
Proof.
  replace (wrapInt z - a) with (- a + wrapInt z) by lia.
  rewrite wrapInt_add_r. f_equal. lia.
Qed.

(** X1. [subtract(a, x)] undoes [add(a, x)] and the other way round,
    overflow or not: [add(a, subtract(a, b))] and [subtract(a, add(a, b))]
    are both [b], for every [a] and every [int] [b]. *)
Theorem helpers_add_subtract (a b : Z) :
  isInt b ->
  helpers.add a (helpers.subtract a b) = b /\
  helpers.subtract a (helpers.add a b) = b.
Proof.
  intros Hb. unfold helpers.add, helpers.subtract. split.
  - rewrite wrapInt_add_r. replace (a + (b - a)) with b by lia.
    apply wrapInt_exact, Hb.
  - rewrite wrapInt_sub_r. replace (a + b - a) with b by lia.
    apply wrapInt_exact, Hb.
Qed.

Lemma helpers_add_subtract_witness :
  helpers.add maxInt (helpers.subtract maxInt minInt) = minInt /\
  helpers.subtract maxInt (helpers.add maxInt minInt) = minInt.
Proof.
  apply (helpers_add_subtract maxInt minInt).
  unfold isInt, minInt, maxInt, intSize. lia.
Defined.

(** ** [adjustName] resolves every parent reference *)

Lemma occurs_app c s1 s2 :
  occurs c (s1 +:+ s2) = occurs c s1 || occurs c s2.
Proof.
  induction s1 as [|x s1 IH]; simpl; [reflexivity|].
  rewrite IH, orb_assoc. reflexivity.
Qed.

Lemma occurs_substitute c new s :
  occurs c new = false -> occurs c (substitute c new s) = false.
Proof.
  intros Hnew. induction s as [|x s IH]; simpl; [reflexivity|].
  rewrite occurs_app, IH, orb_false_r.
  destruct (Ascii.eqb x c) eqn:E; [exact Hnew|].
  simpl. rewrite E. reflexivity.
Qed.

(** X2. When the parent scope holds no [&], the selector [adjustName]
    returns holds none: every parent reference is resolved, whatever the
    selector. *)
Theorem adjustName_resolves (sel parentNode : string) :
  occurs amp parentNode = false ->
  occurs amp (adjustName sel parentNode) = false.
Proof.
  intros Hparent. unfold adjustName.
  change "&"%string with (String.String amp EmptyString).
  rewrite Contains_byte, Replace_byte_all.
  destruct (occurs amp (strings.TrimSpace sel)) eqn:Hsel.
  - apply occurs_substitute, Hparent.
  - destruct (strings.HasPrefix (strings.TrimSpace sel) ":"); [|exact Hsel].
    rewrite !occurs_app, Hparent, Hsel. reflexivity.
Qed.

Lemma adjustName_resolves_witness :
  occurs amp (adjustName " & > &:hover " ".card") = false.
Proof. apply (adjustName_resolves " & > &:hover " ".card"). reflexivity. Defined.

(** A parent scope that holds a [&] leaves one behind. *)
Example adjustName_unresolved :
  adjustName "&.x" "&.y" = "&.y.x"%string.
Proof. reflexivity. Qed.

(** ** [morphRule] on plain rules *)

Lemma plainSelector_adjustName (sel parentNode : string) :
  plainSelector sel = true -> adjustName sel parentNode = sel.
Proof.
  unfold plainSelector. intros H.
  apply andb_true_iff in H as [H Hcolon].
  apply andb_true_iff in H as [Htrim Hamp].
  apply String.eqb_eq in Htrim. apply negb_true_iff in Hamp, Hcolon.
  apply adjustName_plain_trimmed; assumption.
Qed.

Lemma plainSelector_map (sels : list string) (parentNode : string) :
  forallb plainSelector sels = true ->
  List.map (fun sel => adjustName sel parentNode) sels = sels.
Proof.
  induction sels as [|sel sels IH]; simpl; [reflexivity|].
  intros H. apply andb_true_iff in H as [Hsel Hsels].
  rewrite plainSelector_adjustName, IH by assumption. reflexivity.
Qed.

(** X3. A rule tree in which every selector the rewriting visits is plain
    - no surrounding white space, no [&], no leading [:] - comes out of
    [morphRule] as it went in, whatever the parent scope. *)
Theorem morphRule_plain (parentNode : string) (base : bcss.Rule) :
  plainTree base = true -> morphRule base parentNode = base.
Proof.
  induction base as [kind name prelude sels decls rules level IH]
    using Rule_nested_ind.
  cbn [plainTree]. intros H. apply andb_true_iff in H as [Hsels Hrules].
  rewrite morphRule_unfold.
  cbn [bcss.Kind bcss.Name bcss.Prelude bcss.Selectors bcss.Declarations
       bcss.Rules bcss.EmbedLevel].
  rewrite plainSelector_map by assumption. f_equal.
  induction IH as [|rule rules Hrule _ IHrules]; [reflexivity|].
  cbn [forallb] in Hrules. apply andb_true_iff in Hrules as [Hr Hrs].
  cbn [List.map]. rewrite IHrules by assumption. f_equal.
  unfold morphNested, isAtRule.
  destruct (bcss.RuleKind_eqb (bcss.Kind rule) bcss.AtRule).
  - apply Hrule, Hr.
  - rewrite plainSelector_map by assumption. destruct rule; reflexivity.
Qed.

Lemma morphRule_plain_witness :
  morphRule
    (bcss.mkRule bcss.AtRule "@media" "screen" [] []
       [ bcss.mkRule bcss.QualifiedRule EmptyString ".a, .b"
           [".a"; ".b"]%string [] [] 1;
         bcss.mkRule bcss.QualifiedRule EmptyString "p" ["p"%string] []
           [ bcss.mkRule bcss.QualifiedRule EmptyString "&.deep"
               ["&.deep"%string] [] [] 2 ] 1 ] 0)
    ".parent"
  = bcss.mkRule bcss.AtRule "@media" "screen" [] []
       [ bcss.mkRule bcss.QualifiedRule EmptyString ".a, .b"
           [".a"; ".b"]%string [] [] 1;
         bcss.mkRule bcss.QualifiedRule EmptyString "p" ["p"%string] []
           [ bcss.mkRule bcss.QualifiedRule EmptyString "&.deep"
               ["&.deep"%string] [] [] 2 ] 1 ] 0.
Proof. apply morphRule_plain. reflexivity. Defined.

(** ** [extend] stays at the top level *)

(** X19. [extend] goes by the prelude and the declarations of the
    top-level rules and by nothing else: kind, name, selectors and nested
    rules play no part, so a rule nested in an at-rule is never found and
    an at-rule is matched, by its prelude, like any rule. *)
Theorem extend_top_level (rules rules' : list bcss.Rule) (item : string) :
  List.map (fun rule => (bcss.Prelude rule, bcss.Declarations rule)) rules
  = List.map (fun rule => (bcss.Prelude rule, bcss.Declarations rule)) rules' ->
  extend (Some (bcss.mkStylesheet rules)) item
  = extend (Some (bcss.mkStylesheet rules')) item.
Proof.
  intros H. unfold extend. cbn [bcss.Stylesheet_Rules]. f_equal.
  revert rules' H. induction rules as [|rule rules IH];
    intros [|rule' rules'] H; try discriminate; [reflexivity|].
  cbn [List.map] in H. injection H as Hp Hd Hrest.
  cbn [extendRules]. rewrite Hp, Hd, (IH _ Hrest). reflexivity.
Qed.

Lemma extend_top_level_witness :
  extend (Some (bcss.mkStylesheet [Sample.media])) "&.c"
  = extend (Some (bcss.mkStylesheet
                    [bcss.mkRule bcss.QualifiedRule EmptyString "print"
                       [] [] [] 0])) "&.c".
Proof.
  apply (extend_top_level [Sample.media]
           [bcss.mkRule bcss.QualifiedRule EmptyString "print" [] [] [] 0]
           "&.c").
  reflexivity.
Defined.

(** The rule [&.c] nested in the at-rule is not found. *)
Example extend_misses_nested :
  extend (Some (bcss.mkStylesheet [Sample.media])) "&.c" = EmptyString.
Proof. reflexivity. Qed.

(** ** More on [Stylesheet] *)

Section MoreRendering.

Context {Template Binding Error : Type}.
Variable Execute : Template -> (string -> string) -> Binding -> Error + string.
Variable Parse : string -> Error + bcss.Stylesheet.

Local Abbreviation run := (Stylesheet Execute Parse).
Local Abbreviation St := (State Template).

Implicit Types (st : St) (r : ptr) (a : nat) (this : Rule Template)
  (fuel : nat) (bind : Binding) (parentNode : string).

(** *** Rules without feed *)

Lemma Stylesheet_feedless fuel bind parentNode :
  forall r st out st' x o,
    run fuel r bind parentNode st = (out, st') ->
    heap st !! x = Some o -> feed o = None ->
    heap st' !! x = Some o.
Proof.
  induction fuel as [|fuel IH]; intros r st out st' x o H Hx Ho.
  - cbn in H. unfold outOfFuel in H. injection H as _ <-. exact Hx.
  - rewrite Stylesheet_stages in H. cbv zeta in H.
    set (st0 := mkState (heap st) (calls st ++ [r])) in *.
    assert (heap st0 !! x = Some o) as Hx0 by exact Hx.
    destruct r as [a|]; [|injection H as _ <-; exact Hx0].
    destruct (heap st !! a) as [this|] eqn:Ha;
      [|injection H as _ <-; exact Hx0].
    destruct (feedBlock _ a this st0) as [o1 st1] eqn:E1.
    assert (heap st1 !! x = Some o) as Hx1.
    { revert E1. unfold feedBlock. destruct (feed this) as [f|] eqn:Hf.
      - unfold mbind.
        destruct (run fuel (Some f) bind parentNode st0) as [oo s] eqn:E.
        pose proof (IH _ _ _ _ _ _ E Hx0 Ho) as Hs.
        destruct oo; intros E'; injection E' as _ <-; try exact Hs.
        cbn [heap]. destruct (decide (a = x)) as [->|Hne].
        + rewrite Hx in Ha. injection Ha as ->. congruence.
        + rewrite list_lookup_alter_ne by assumption. exact Hs.
      - intros E. injection E as _ <-. exact Hx0. }
    destruct o1 as [[]|err| |]; try (injection H as _ <-; exact Hx1).
    destruct (dependsLoop _ (depends this) [] st1) as [o2 st2] eqn:E2.
    assert (heap st2 !! x = Some o) as Hx2.
    { clear H E1. revert E2 Hx1. generalize (@nil bcss.Rule) as acc.
      generalize st1 as s. induction (depends this) as [|rule rest IHrs];
        intros s acc; cbn [dependsLoop].
      - intros E Hs. injection E as _ <-. exact Hs.
      - unfold mbind.
        destruct (run fuel rule bind parentNode s) as [oo s'] eqn:E.
        intros E' Hs. pose proof (IH _ _ _ _ _ _ E Hs Ho) as Hs'.
        destruct oo; try (injection E' as _ <-; exact Hs').
        eapply IHrs; eassumption. }
    destruct o2; injection H as _ <-; exact Hx2.
Qed.

(** X4. No call, on whatever rule, writes to a rule that has no feed: its
    [feedStyle] stays what it was, so a rule made by [New] with a nil
    extension has a nil [feedStyle] for good, and [extend] answers the
    empty string in its template at every rendering. *)
Theorem Stylesheet_spares_feedless fuel r bind parentNode st x o :
  heap st !! x = Some o ->
  feed o = None ->
  heap (snd (run fuel r bind parentNode st)) !! x = Some o /\
  (feedStyle o = None ->
   forall item, extend (styleAt x (snd (run fuel r bind parentNode st))) item
                = EmptyString).
Proof.
  intros Hx Ho.
  destruct (run fuel r bind parentNode st) as [out st'] eqn:E.
  pose proof (Stylesheet_feedless _ _ _ _ _ _ _ _ _ E Hx Ho) as Hx'.
  cbn [snd]. split; [exact Hx'|].
  intros Hnil item. unfold styleAt. rewrite Hx', Hnil. reflexivity.
Qed.


(** *** Stale caches and repeated renderings *)

Lemma frozen_lookup_None (h h' : list (Rule Template)) a :
  List.map frozen h = List.map frozen h' -> h !! a = None -> h' !! a = None.
Proof.
  intros Hfr Ha. apply lookup_ge_None. apply lookup_ge_None in Ha.
  rewrite <- (List.length_map frozen h'), <- Hfr, List.length_map. exact Ha.
Qed.

Lemma wroteAlike_refl (h h' : list (Rule Template)) : wroteAlike h h h' h'.
Proof. repeat split. intros x. left. split; reflexivity. Qed.

Lemma wroteAlike_trans (h s1 s2 h' s1' s2' : list (Rule Template)) :
  wroteAlike h s1 h' s1' -> wroteAlike s1 s2 s1' s2' ->
  wroteAlike h s2 h' s2'.
Proof.
  intros (F1 & F1' & W1) (F2 & F2' & W2).
  split; [congruence|]. split; [congruence|]. intros x.
  destruct (W2 x) as [[E2 E2']|E2]; [|right; exact E2].
  destruct (W1 x) as [[E1 E1']|E1].
  - left. split; congruence.
  - right. congruence.
Qed.

Lemma agreeButCaches_step (h s h' s' : list (Rule Template)) :
  agreeButCaches h h' -> wroteAlike h s h' s' -> agreeButCaches s s'.
Proof.
  intros [Fr Hfl] (F & F' & W). split; [congruence|].
  intros x o Hx Ho. destruct (W x) as [[E E']|E].
  - rewrite E'. apply Hfl; [|exact Ho]. rewrite <- E. exact Hx.
  - rewrite <- E. exact Hx.
Qed.

Lemma Stylesheet_frozen fuel r bind parentNode st :
  List.map frozen (heap (snd (run fuel r bind parentNode st)))
  = List.map frozen (heap st).
Proof.
  destruct (run fuel r bind parentNode st) as [out st'] eqn:E.
  exact (proj1 (Stylesheet_framed _ _ _ _ _ _ _ _ _ E)).
Qed.

Lemma setFeedStyle_alike a sheet (s s' : St) :
  List.map frozen (heap s) = List.map frozen (heap s') ->
  wroteAlike (heap s) (heap (snd (setFeedStyle (Error := Error) a sheet s)))
             (heap s') (heap (snd (setFeedStyle (Error := Error) a sheet s')))
  /\ heap (snd (setFeedStyle (Error := Error) a sheet s)) !! a
     = heap (snd (setFeedStyle (Error := Error) a sheet s')) !! a.
Proof.
  intros Fr. cbn [setFeedStyle snd heap].
  assert (alter (fun o : Rule Template =>
                   mkRule (template o) (feed o) (Some sheet) (depends o))
            a (heap s) !! a
          = alter (fun o : Rule Template =>
                     mkRule (template o) (feed o) (Some sheet) (depends o))
              a (heap s') !! a) as Ha.
  { rewrite !list_lookup_alter_eq.
    destruct (heap s !! a) as [o|] eqn:Ho.
    - destruct (frozen_lookup _ _ _ _ (eq_sym Fr) Ho) as (o' & -> & Heq).
      unfold frozen in Heq. injection Heq as Ht Hf Hd. cbn. congruence.
    - rewrite (frozen_lookup_None _ _ _ Fr Ho). reflexivity. }
  split; [|exact Ha].
  split; [apply frozen_alter|]. split; [apply frozen_alter|]. intros x.
  destruct (decide (a = x)) as [<-|Hne]; [right; exact Ha|].
  left. split; apply list_lookup_alter_ne; assumption.
Qed.

(** Two calls from heaps that agree but for the caches answer the same
    and write alike. *)
Lemma Stylesheet_agree fuel bind parentNode :
  forall r st st',
    agreeButCaches (heap st) (heap st') ->
    fst (run fuel r bind parentNode st) = fst (run fuel r bind parentNode st')
    /\ wroteAlike (heap st) (heap (snd (run fuel r bind parentNode st)))
                  (heap st') (heap (snd (run fuel r bind parentNode st'))).
Proof.
  induction fuel as [|fuel IH]; intros r st st' Hag.
  - cbn. split; [reflexivity|apply wroteAlike_refl].
  - rewrite !Stylesheet_stages. cbv zeta.
    set (st0 := mkState (heap st) (calls st ++ [r])).
    set (st0' := mkState (heap st') (calls st' ++ [r])).
    assert (agreeButCaches (heap st0) (heap st0')) as Hag0 by exact Hag.
    assert (wroteAlike (heap st) (heap st0) (heap st') (heap st0')) as W0
      by apply wroteAlike_refl.
    destruct r as [a|]; [|split; [reflexivity|exact W0]].
    destruct (heap st !! a) as [this|] eqn:Ha.
    2:{ rewrite (frozen_lookup_None _ _ _ (proj1 Hag) Ha).
        split; [reflexivity|exact W0]. }
    destruct (frozen_lookup _ _ _ _ (eq_sym (proj1 Hag)) Ha)
      as (this' & -> & Heq).
    unfold frozen in Heq. injection Heq as Ht Hf Hd.
    (* the feed block *)
    assert (fst (feedBlock (fun rule => run fuel rule bind parentNode)
                   a this st0)
            = fst (feedBlock (fun rule => run fuel rule bind parentNode)
                     a this' st0') /\
            wroteAlike (heap st0)
              (heap (snd (feedBlock (fun rule => run fuel rule bind parentNode)
                            a this st0)))
              (heap st0')
              (heap (snd (feedBlock (fun rule => run fuel rule bind parentNode)
                            a this' st0'))) /\
            (feed this <> None ->
             fst (feedBlock (fun rule => run fuel rule bind parentNode)
                    a this st0) = Ok tt ->
             heap (snd (feedBlock (fun rule => run fuel rule bind parentNode)
                          a this st0)) !! a
             = heap (snd (feedBlock (fun rule => run fuel rule bind parentNode)
                            a this' st0')) !! a))
      as (Ho1 & W1 & Hwritten).
    { unfold feedBlock. rewrite Hf.
      destruct (feed this) as [f|].
      2:{ split; [reflexivity|]. split; [apply wroteAlike_refl|]. congruence. }
      unfold mbind. destruct (IH (Some f) _ _ Hag0) as [Ho W].
      destruct (run fuel (Some f) bind parentNode st0) as [o s].
      destruct (run fuel (Some f) bind parentNode st0') as [o' s'].
      cbn [fst snd] in Ho, W. subst o'.
      destruct o as [sheet|err| |]; cbn [fst snd];
        try (split; [reflexivity|]; split; [exact W|]; discriminate).
      pose proof (agreeButCaches_step _ _ _ _ Hag0 W) as [Fr _].
      destruct (setFeedStyle_alike a sheet s s' Fr) as [W' Ha'].
      split; [reflexivity|]. split; [|intros _ _; exact Ha'].
      eapply wroteAlike_trans; eassumption. }
    destruct (feedBlock _ a this st0) as [o1 st1].
    destruct (feedBlock _ a this' st0') as [o1' st1'].
    cbn [fst snd] in Ho1, W1, Hwritten. subst o1'.
    pose proof (agreeButCaches_step _ _ _ _ Hag0 W1) as Hag1.
    destruct o1 as [[]|err| |]; try (split; [reflexivity|exact W1]).
    (* the loop over depends *)
    rewrite Hd.
    assert (forall rs acc s s',
               agreeButCaches (heap s) (heap s') ->
               fst (dependsLoop (fun rule => run fuel rule bind parentNode)
                      rs acc s)
               = fst (dependsLoop (fun rule => run fuel rule bind parentNode)
                        rs acc s') /\
               wroteAlike (heap s)
                 (heap (snd (dependsLoop
                               (fun rule => run fuel rule bind parentNode)
                               rs acc s)))
                 (heap s')
                 (heap (snd (dependsLoop
                               (fun rule => run fuel rule bind parentNode)
                               rs acc s')))) as Hloop.
    { induction rs as [|rule rest IHrs]; intros acc s s' Hs;
        cbn [dependsLoop].
      - split; [reflexivity|apply wroteAlike_refl].
      - unfold mbind. destruct (IH rule _ _ Hs) as [Ho W].
        destruct (run fuel rule bind parentNode s) as [o t].
        destruct (run fuel rule bind parentNode s') as [o' t'].
        cbn [fst snd] in Ho, W. subst o'.
        destruct o as [sheet|err| |]; cbn [fst snd];
          try (split; [reflexivity|exact W]).
        destruct (IHrs (acc ++ bcss.Stylesheet_Rules sheet) t t'
                    (agreeButCaches_step _ _ _ _ Hs W)) as [Ho' W'].
        split; [exact Ho'|]. eapply wroteAlike_trans; eassumption. }
    destruct (Hloop (depends this) [] _ _ Hag1) as [Ho2 W2].
    destruct (dependsLoop _ (depends this) [] st1) as [o2 st2].
    destruct (dependsLoop _ (depends this) [] st1') as [o2' st2'].
    cbn [fst snd] in Ho2, W2. subst o2'.
    pose proof (wroteAlike_trans _ _ _ _ _ _ W1 W2) as W12.
    destruct o2 as [rules|err| |]; cbn [fst snd];
      try (split; [reflexivity|exact W12]).
    split; [|exact W12].
    (* the tail reads the same field *)
    assert (heap st2 !! a = heap st2' !! a) as Hsame.
    { destruct W2 as (F2 & F2' & W2). destruct (feed this) as [f|] eqn:Hfeed.
      - specialize (Hwritten ltac:(discriminate) eq_refl).
        destruct (W2 a) as [[E E']|E]; congruence.
      - pose proof (agreeButCaches_step _ _ _ _ Hag1 (conj F2 (conj F2' W2)))
          as [_ Hfl].
        destruct W1 as (F1 & _ & _). cbn [heap] in F1.
        assert (List.map frozen (heap st2) = List.map frozen (heap st))
          as F by (rewrite F2, F1; reflexivity).
        destruct (frozen_lookup _ _ _ _ F Ha) as (o2 & Ho2' & Heq2).
        rewrite Ho2'. symmetry. apply Hfl; [exact Ho2'|].
        unfold frozen in Heq2. injection Heq2 as _ Hf2 _. congruence. }
    unfold finish, styleAt. rewrite Hsame, Ht. reflexivity.
Qed.

(** X5. What a call answers does not depend on the stylesheets cached in
    the rules that have a feed: from two states that hold the same rules
    and agree on the [feedStyle] of the rules without feed, it answers
    the same. *)
Theorem Stylesheet_ignores_caches fuel r bind parentNode st st' :
  agreeButCaches (heap st) (heap st') ->
  fst (run fuel r bind parentNode st) = fst (run fuel r bind parentNode st').
Proof. intros H. exact (proj1 (Stylesheet_agree _ _ _ _ _ _ H)). Qed.

(** X6. Rendering is repeatable: the same call made again, in the
    state the first one left, answers what the first one answered and
    leaves every rule as it found it. *)
Theorem Stylesheet_repeatable fuel r bind parentNode st :
  let first := run fuel r bind parentNode st in
  let second := run fuel r bind parentNode (snd first) in
  fst second = fst first /\ heap (snd second) = heap (snd first).
Proof.
  intros first second. subst first second.
  destruct (run fuel r bind parentNode st) as [out st1] eqn:E1. cbn [fst snd].
  assert (agreeButCaches (heap st) (heap st1)) as Hag.
  { split.
    - symmetry. exact (proj1 (Stylesheet_framed _ _ _ _ _ _ _ _ _ E1)).
    - intros x o Hx Ho. eapply Stylesheet_feedless; eassumption. }
  destruct (Stylesheet_agree fuel bind parentNode r st st1 Hag) as [Ho W].
  rewrite E1 in Ho, W. cbn [fst snd] in Ho, W.
  split; [symmetry; exact Ho|].
  destruct W as (_ & _ & W). apply list_eq. intros x.
  destruct (W x) as [[_ E]|E]; congruence.
Qed.


(** *** What a call writes, and that it ends *)

(** X7. A call writes [feedStyle] fields and nothing else: every rule
    keeps its template, its feed and its [depends], and the heap its
    size.  Pointers leading to earlier rules, the rules allocated after
    the one called are not written at all. *)
Theorem Stylesheet_writes_caches_only fuel r bind parentNode st :
  let st' := snd (run fuel r bind parentNode st) in
  length (heap st') = length (heap st) /\
  (forall x o, heap st !! x = Some o ->
     exists o', heap st' !! x = Some o' /\ template o' = template o /\
                feed o' = feed o /\ depends o' = depends o) /\
  (ordered (heap st) ->
   forall x, (bound r <= x)%nat -> heap st' !! x = heap st !! x).
Proof.
  intros st'. subst st'.
  destruct (run fuel r bind parentNode st) as [out st'] eqn:E. cbn [snd].
  destruct (Stylesheet_framed _ _ _ _ _ _ _ _ _ E) as [Fr L].
  split; [|split; [|exact L]].
  - rewrite <- (List.length_map frozen (heap st')), Fr. apply List.length_map.
  - intros x o Hx.
    destruct (frozen_lookup _ _ _ _ Fr Hx) as (o' & Hx' & Heq).
    exists o'. unfold frozen in Heq. injection Heq as Ht Hf Hd. auto.
Qed.

(** X8. Pointers leading to earlier rules - as among rules made by [New]
    - a call ends: one outcome, other than running out of budget, is what
    it answers within every budget above the address called. *)
Theorem Stylesheet_terminates r bind parentNode st :
  ordered (heap st) ->
  exists out st',
    out <> OutOfFuel /\
    forall fuel, (bound r < fuel)%nat ->
      run fuel r bind parentNode st = (out, st').
Proof.
  intros Hord.
  destruct (run (S (bound r)) r bind parentNode st) as [out st'] eqn:E.
  assert (out <> OutOfFuel) as Hout
    by (eapply (Stylesheet_answers Execute Parse); [exact Hord| |exact E]; lia).
  exists out, st'. split; [exact Hout|]. intros fuel Hfuel.
  eapply Stylesheet_fuel_le; [exact E|exact Hout|lia].
Qed.

(** *** The failures of a call *)

(** X9. When the feed of a rule fails, the call on the rule returns the
    feed's error in the state the feed left - no entry of [depends] is
    invoked, the template is not executed - and, pointers leading to
    earlier rules, the rule is as it was: its [feedStyle] is not
    overwritten. *)
Theorem Stylesheet_feed_fails fuel a this f bind parentNode st err st1 :
  ordered (heap st) ->
  heap st !! a = Some this ->
  feed this = Some f ->
  run fuel (Some f) bind parentNode (mkState (heap st) (calls st ++ [Some a]))
  = (Err err, st1) ->
  run (S fuel) (Some a) bind parentNode st = (Err err, st1) /\
  heap st1 !! a = Some this.
Proof.
  intros Hord Ha Hf Hfeed. split.
  - rewrite Stylesheet_stages. cbv zeta. rewrite Ha. cbv beta iota.
    unfold feedBlock. rewrite Hf. unfold mbind. rewrite Hfeed. reflexivity.
  - destruct (Stylesheet_framed _ _ _ _ _ _ _ _ _ Hfeed) as [_ L].
    rewrite L; [exact Ha|exact Hord|].
    destruct (Hord a this Ha) as [Hlt _]. specialize (Hlt f Hf). cbn. lia.
Qed.

Lemma dependsLoop_app (call : ptr -> M Template Error bcss.Stylesheet)
    (pre post : list ptr) (acc : list bcss.Rule) (st : St) :
  dependsLoop call (pre ++ post) acc st =
  match dependsLoop call pre acc st with
  | (Ok rules, st') => dependsLoop call post rules st'
  | (Err err, st') => (Err err, st')
  | (Panic, st') => (Panic, st')
  | (OutOfFuel, st') => (OutOfFuel, st')
  end.
Proof.
  revert acc st. induction pre as [|rule pre IH]; intros acc st.
  - reflexivity.
  - cbn [app dependsLoop]. unfold mbind.
    destruct (call rule st) as [[sheet|err| |] st1]; try reflexivity.
    apply IH.
Qed.

(** X10. A nil pointer among the [depends] of a rule makes the call on
    it panic, once the feed block and the entries before the nil pointer
    have succeeded: [New] takes nil rules, [Stylesheet] does not. *)
Theorem Stylesheet_nil_depends fuel a this bind parentNode st st1 pre post
    sheets st2 :
  heap st !! a = Some this ->
  depends this = pre ++ None :: post ->
  feedBlock (fun rule => run (S fuel) rule bind parentNode) a this
    (mkState (heap st) (calls st ++ [Some a])) = (Ok tt, st1) ->
  resolveAll (fun rule => run (S fuel) rule bind parentNode) pre st1
  = (Ok sheets, st2) ->
  fst (run (S (S fuel)) (Some a) bind parentNode st) = Panic.
Proof.
  intros Ha Hdeps Hfeed Hpre.
  rewrite Stylesheet_stages. cbv zeta. rewrite Ha. cbv beta iota.
  rewrite Hfeed. cbv beta iota. rewrite Hdeps, dependsLoop_app.
  rewrite dependsLoop_resolveAll, Hpre. cbn [dependsLoop]. unfold mbind.
  rewrite Stylesheet_stages. reflexivity.
Qed.



(** X12. The parent scope decides nothing but selectors: with two parent
    scopes, a call ends alike - the same error, or two stylesheets that
    differ in their [Selectors] fields at most - after the same
    invocations. *)
Theorem Stylesheet_parent_scope fuel r bind parentNode parentNode' st :
  let one := run fuel r bind parentNode st in
  let other := run fuel r bind parentNode' st in
  sameOutcome sameButSelectors (fst one) (fst other) /\
  calls (snd one) = calls (snd other).
Proof.
  intros one other. subst one other.
  destruct (Stylesheet_similar Execute Parse fuel bind parentNode parentNode'
              r st st (similar_refl st)) as [Ho [Hc _]].
  split; assumption.
Qed.


(** *** Rules allocated later *)

Lemma frozen_length (h h' : list (Rule Template)) :
  List.map frozen h' = List.map frozen h -> length h' = length h.
Proof.
  intros Fr. rewrite <- (List.length_map frozen h'), Fr.
  apply List.length_map.
Qed.

(** A call reads and writes nothing above the rule it is made on: rules
    allocated later change nothing to it. *)
Lemma Stylesheet_extended fuel bind parentNode (extra : list (Rule Template)) :
  forall r st,
    ordered (heap st) -> (bound r <= length (heap st))%nat ->
    run fuel r bind parentNode (extended st extra)
    = (fst (run fuel r bind parentNode st),
       extended (snd (run fuel r bind parentNode st)) extra).
Proof.
  induction fuel as [|fuel IH]; intros r st Hord Hr; [reflexivity|].
  rewrite !Stylesheet_stages. cbv zeta.
  change (mkState (heap (extended st extra)) (calls (extended st extra) ++ [r]))
    with (extended (mkState (heap st) (calls st ++ [r])) extra).
  set (st0 := mkState (heap st) (calls st ++ [r])).
  assert (ordered (heap st0)) as Hord0 by exact Hord.
  destruct r as [a|]; [|reflexivity]. cbn [bound] in Hr.
  change (heap (extended st extra)) with (heap st ++ extra).
  rewrite lookup_app_l by lia.
  destruct (heap st !! a) as [this|] eqn:Ha; [|reflexivity].
  destruct (Hord a this Ha) as [Hfeed Hdeps].
  (* the feed block *)
  assert (feedBlock (fun rule => run fuel rule bind parentNode) a this
            (extended st0 extra)
          = (fst (feedBlock (fun rule => run fuel rule bind parentNode)
                    a this st0),
             extended
               (snd (feedBlock (fun rule => run fuel rule bind parentNode)
                       a this st0)) extra) /\
          List.map frozen
            (heap (snd (feedBlock (fun rule => run fuel rule bind parentNode)
                          a this st0)))
          = List.map frozen (heap st0)) as [E1 Fr1].
  { unfold feedBlock. destruct (feed this) as [f|] eqn:Hf;
      [|split; reflexivity].
    specialize (Hfeed f eq_refl). unfold mbind.
    rewrite (IH (Some f) st0 Hord0) by (cbn; unfold st0; cbn; lia).
    destruct (run fuel (Some f) bind parentNode st0) as [o s] eqn:E.
    destruct (Stylesheet_framed _ _ _ _ _ _ _ _ _ E) as [Fr _].
    cbn [fst snd].
    destruct o as [sheet|err| |]; try (split; [reflexivity|exact Fr]).
    split.
    - unfold setFeedStyle, extended. cbn [heap calls fst snd].
      rewrite alter_app_l; [reflexivity|].
      rewrite (frozen_length _ _ Fr). unfold st0. cbn. lia.
    - cbn [setFeedStyle snd heap]. rewrite frozen_alter. exact Fr. }
  rewrite E1.
  destruct (feedBlock _ a this st0) as [o1 st1]. cbn [fst snd] in *.
  destruct o1 as [[]|err| |]; try reflexivity.
  assert (ordered (heap st1)) as Hord1
    by (eapply ordered_frozen; [exact Fr1|exact Hord0]).
  assert (length (heap st1) = length (heap st)) as Hlen1
    by exact (frozen_length _ _ Fr1).
  (* the loop over depends *)
  assert (forall rs acc s,
             Forall (fun rule : ptr => forall d, rule = Some d -> (d < a)%nat)
               rs ->
             ordered (heap s) -> length (heap s) = length (heap st) ->
             dependsLoop (fun rule => run fuel rule bind parentNode) rs acc
               (extended s extra)
             = (fst (dependsLoop (fun rule => run fuel rule bind parentNode)
                       rs acc s),
                extended
                  (snd (dependsLoop (fun rule => run fuel rule bind parentNode)
                          rs acc s)) extra) /\
             length
               (heap (snd (dependsLoop
                             (fun rule => run fuel rule bind parentNode)
                             rs acc s)))
             = length (heap st)) as Hloop.
  { induction rs as [|rule rest IHrs]; intros acc s Hlt Hs Hlen;
      cbn [dependsLoop]; [split; [reflexivity|exact Hlen]|].
    apply Forall_cons in Hlt as [Hrule Hrest]. unfold mbind.
    rewrite (IH rule s Hs).
    2:{ destruct rule as [d|]; cbn; [|lia]. specialize (Hrule d eq_refl). lia. }
    destruct (run fuel rule bind parentNode s) as [o s'] eqn:E.
    destruct (Stylesheet_framed _ _ _ _ _ _ _ _ _ E) as [Fr _].
    pose proof (frozen_length _ _ Fr) as Hlen'. cbn [fst snd].
    destruct o as [sheet|err| |];
      try (split; [reflexivity|cbn [snd]; lia]).
    apply IHrs; [exact Hrest| |lia].
    eapply ordered_frozen; eassumption. }
  destruct (Hloop (depends this) [] st1 Hdeps Hord1 Hlen1) as [E2 Hlen2].
  rewrite E2.
  destruct (dependsLoop _ (depends this) [] st1) as [o2 st2].
  cbn [fst snd] in *.
  destruct o2 as [rules|err| |]; try reflexivity.
  unfold styleAt, extended. cbn [heap].
  rewrite lookup_app_l by lia. reflexivity.
Qed.

(** X13. Making a rule changes nothing to the rendering of the rules
    there are: after [New], a call on a rule that existed answers what it
    would have answered before, and leaves the same heap, with the new
    rule at its end, untouched. *)
Theorem New_spares_renderings (ParseTemplate : string -> Error + Template)
    rules extension rs made fuel r bind parentNode st st' :
  ordered (heap st) ->
  (bound r <= length (heap st))%nat ->
  New ParseTemplate rules extension rs st = (Ok made, st') ->
  fst (run fuel r bind parentNode st') = fst (run fuel r bind parentNode st) /\
  exists tmp,
    ParseTemplate rules = inr tmp /\
    heap (snd (run fuel r bind parentNode st'))
    = heap (snd (run fuel r bind parentNode st))
      ++ [mkRule tmp extension None rs].
Proof.
  intros Hord Hr. unfold New.
  destruct (ParseTemplate rules) as [err|tmp]; [discriminate|].
  intros H. injection H as _ <-.
  change (mkState (heap st ++ [mkRule tmp extension None rs]) (calls st))
    with (extended st [mkRule tmp extension None rs]).
  rewrite Stylesheet_extended by assumption. cbn [fst snd].
  split; [reflexivity|]. exists tmp. split; reflexivity.
Qed.

End MoreRendering.

(** ** The bundler: [Webpack] *)

Section Bundler.

Context {FileStatement DirStatement WriterTo Error : Type}.
Variable FilesByExt : DirStatement -> gmap string (list FileStatement).
Variable GetDirStatement : string -> bool -> DirStatement * option Error.
Variable rangeOrder :
  gmap string (list FileStatement) -> list (string * list FileStatement).
Variable noPackerError : string -> Error.
Variable packedSource :
  string -> assets.GoMap (list (assets.WriteDirective WriterTo)) -> WriterTo.

Local Abbreviation Bundler :=
  (assets.Webpack FileStatement DirStatement WriterTo Error).
Local Abbreviation APacker :=
  (assets.Packer FileStatement DirStatement WriterTo Error).
Local Abbreviation Build :=
  (assets.Build FileStatement DirStatement WriterTo Error FilesByExt
     GetDirStatement rangeOrder noPackerError).
Local Abbreviation Compile :=
  (assets.Compile FileStatement DirStatement WriterTo Error FilesByExt
     GetDirStatement rangeOrder noPackerError packedSource).
Local Abbreviation buildLoop :=
  (assets.buildLoop FileStatement DirStatement WriterTo Error noPackerError).

Implicit Types (w : Bundler) (p : APacker) (ext dir : string).

(** The loop, entered with the nil map it is always entered with, ends
    in its first round. *)
Lemma buildLoop_nil w statement err entries wd out :
  buildLoop w statement err entries None = assets.Returns wd out ->
  wd = None.
Proof.
  destruct entries as [|[ext files] rest]; cbn [assets.buildLoop].
  - intros H. injection H as <- _. reflexivity.
  - cbv zeta.
    destruct (negb _ && _); [intros H; injection H as <- _; reflexivity|].
    destruct (match assets.defaultPacker w with
              | Some standard =>
                match (match assets.mapIndex (assets.packers w) ext with
                       | Some _ => true | None => false end) with
                | true => _ | false => _ end
              | None => _ end) as [[directives [derr|]]|];
      cbn; try discriminate.
    intros H. injection H as <- _. reflexivity.
Qed.

(** Which packer the loop picks for the entry it visits first. *)
Lemma buildLoop_serves w statement err ext files rest wd p :
  assets.serves w ext p ->
  buildLoop w statement err ((ext, files) :: rest) wd =
  match assets.Pack p files statement with
  | (_, Some _) => assets.Returns wd err
  | (directives, None) =>
    match assets.mapAssign wd ext directives with
    | Some wd' => buildLoop w statement err rest wd'
    | None => assets.Panics
    end
  end.
Proof.
  intros [Hreg|[Hnone Hdef]]; cbn [assets.buildLoop]; cbv zeta.
  - rewrite Hreg. cbn [negb andb option_map].
    destruct (assets.defaultPacker w); reflexivity.
  - rewrite Hnone, Hdef. reflexivity.
Qed.

(** X14. [Build] never returns directives: whenever it returns, with an
    error or without, the map it returns is the nil map. *)
Theorem Build_returns_nil_map w dir doGoSources wd err :
  Build w dir doGoSources = assets.Returns wd err -> wd = None.
Proof.
  unfold assets.Build.
  destruct (GetDirStatement dir doGoSources) as [statement [e|]].
  - intros H. injection H as <- _. reflexivity.
  - apply buildLoop_nil.
Qed.

(** X15. When the packer of the extension visited first fails, [Build]
    drops its error: it returns the nil map and the nil error. *)
Theorem Build_drops_pack_error w dir doGoSources statement ext files rest p
    directives derr :
  GetDirStatement dir doGoSources = (statement, None) ->
  rangeOrder (FilesByExt statement) = (ext, files) :: rest ->
  assets.serves w ext p ->
  assets.Pack p files statement = (directives, Some derr) ->
  Build w dir doGoSources = assets.Returns None None.
Proof.
  intros Hdir Hrange Hserves Hpack. unfold assets.Build.
  rewrite Hdir, Hrange, (buildLoop_serves _ _ _ _ _ _ _ _ Hserves), Hpack.
  reflexivity.
Qed.

(** X16. When the packer of the extension visited first succeeds,
    [Build] panics: it stores the directives in a map that is nil. *)
Theorem Build_panics_when_packed w dir doGoSources statement ext files rest p
    directives :
  GetDirStatement dir doGoSources = (statement, None) ->
  rangeOrder (FilesByExt statement) = (ext, files) :: rest ->
  assets.serves w ext p ->
  assets.Pack p files statement = (directives, None) ->
  Build w dir doGoSources = assets.Panics.
Proof.
  intros Hdir Hrange Hserves Hpack. unfold assets.Build.
  rewrite Hdir, Hrange, (buildLoop_serves _ _ _ _ _ _ _ _ Hserves), Hpack.
  reflexivity.
Qed.

(** X17. [Register] on a bundler made by [New] does not panic.  The
    packer registered for an extension serves it from then on, whatever
    served it before: when [Build] visits that extension first, what
    [Build] does is what the packer's [Pack] decides - the nil map and the
    nil error when it fails, a panic when it succeeds.  The other
    extensions are served as before: when [Build] visits another one
    first, or none, it does what it did before the registration. *)
Theorem Register_serves w ext p :
  (forall standard,
      w = assets.New standard -> assets.Register w ext (Some p) <> None) /\
  (forall w',
      assets.Register w ext (Some p) = Some w' ->
      assets.serves w' ext p /\
      (forall q, assets.serves w' ext q -> q = p) /\
      (forall other q, other <> ext ->
         (assets.serves w' other q <-> assets.serves w other q)) /\
      (forall dir doGoSources statement files rest,
          GetDirStatement dir doGoSources = (statement, None) ->
          rangeOrder (FilesByExt statement) = (ext, files) :: rest ->
          Build w' dir doGoSources
          = match assets.Pack p files statement with
            | (_, Some _) => assets.Returns None None
            | (_, None) => assets.Panics
            end) /\
      (forall dir doGoSources,
          match rangeOrder
                  (FilesByExt (fst (GetDirStatement dir doGoSources))) with
          | (other, _) :: _ => other <> ext
          | [] => True
          end ->
          Build w' dir doGoSources = Build w dir doGoSources)).
Proof.
  split.
  - intros standard ->. discriminate.
  - intros w'. unfold assets.Register, assets.mapAssign.
    destruct (assets.packers w) as [entries|] eqn:Hm; [|discriminate].
    intros H. injection H as <-.
    assert (assets.serves
              (assets.mkWebpack (assets.defaultPacker w)
                 (Some (<[ext:=Some p]> entries))) ext p) as Hserves.
    { left. cbn [assets.packers assets.mapIndex]. apply lookup_insert_eq. }
    split; [exact Hserves|]. split; [|split; [|split]].
    + unfold assets.serves.
      cbn [assets.packers assets.defaultPacker assets.mapIndex].
      rewrite lookup_insert_eq. intros q [H|[H _]]; congruence.
    + unfold assets.serves.
      cbn [assets.packers assets.defaultPacker assets.mapIndex].
      intros other q Hne. rewrite lookup_insert_ne by congruence.
      rewrite Hm. reflexivity.
    + intros dir doGoSources statement files rest Hdir Hrange.
      unfold assets.Build.
      rewrite Hdir, Hrange, (buildLoop_serves _ _ _ _ _ _ _ _ Hserves).
      destruct (assets.Pack p files statement) as [directives [derr|]];
        reflexivity.
    + intros dir doGoSources Hfirst. unfold assets.Build.
      destruct (GetDirStatement dir doGoSources) as [statement [e|]];
        [reflexivity|].
      cbn [fst] in Hfirst.
      destruct (rangeOrder (FilesByExt statement)) as [|[other files] rest];
        [reflexivity|].
      cbn [assets.buildLoop assets.packers assets.defaultPacker
           assets.mapIndex assets.mapAssign].
      rewrite lookup_insert_ne by congruence. rewrite Hm.
      cbn [assets.mapIndex]. reflexivity.
Qed.

(** X18. [Compile] hands the generator no directive: when it returns
    a source, that is the source generated from the nil map; when it
    returns an error, [Build] returned it. *)
Theorem Compile_packs_nothing w dir doGoSources content err :
  Compile w dir doGoSources = assets.Returns content err ->
  (err = None /\ content = Some (packedSource dir None)) \/
  (exists e, err = Some e /\ content = None /\
             Build w dir doGoSources = assets.Returns None (Some e)).
Proof.
  unfold assets.Compile.
  destruct (Build w dir doGoSources) as [wd [e|]|] eqn:HB; [| |discriminate].
  - intros H. injection H as <- <-. right. exists e.
    split; [reflexivity|]. split; [reflexivity|]. f_equal.
    revert HB. unfold assets.Build.
    destruct (GetDirStatement dir doGoSources) as [statement [e'|]].
    + intros HB. injection HB as <- _. reflexivity.
    + apply buildLoop_nil.
  - intros H. injection H as <- <-. left. split; [reflexivity|].
    do 2 f_equal. revert HB. unfold assets.Build.
    destruct (GetDirStatement dir doGoSources) as [statement [e'|]].
    + discriminate.
    + apply buildLoop_nil.
Qed.

End Bundler.

(** ** The further properties at work on the samples *)

Local Open Scope string_scope.

(** X4 on the sample rules: the call on rule [3] leaves rule [0], which
    has no feed, as it was. *)
Lemma Stylesheet_spares_feedless_witness :
  heap (snd (Sample.run 2 (Some 3%nat) EmptyString ".btn" Sample.start))
    !! 0%nat
  = Some (mkRule [Sample.Text ".b{}"] None None []).
Proof.
  exact (proj1 (Stylesheet_spares_feedless Sample.Execute Sample.Parse 2
                  (Some 3%nat) EmptyString ".btn" Sample.start 0
                  (mkRule [Sample.Text ".b{}"] None None [])
                  eq_refl eq_refl)).
Defined.

(** The sample rules with a stale stylesheet cached in rule [3]. *)
Lemma stale_agrees :
  agreeButCaches Sample.rules
    (alter (fun o => mkRule (template o) (feed o) (Some Sample.twice)
                       (depends o)) 3%nat Sample.rules).
Proof.
  split; [reflexivity|]. intros x o Hx Ho.
  do 6 (destruct x as [|x];
        [injection Hx as <-; try discriminate; reflexivity|]).
  discriminate.
Qed.

(** X5 on them: the stale cache changes nothing to the answer. *)
Lemma Stylesheet_ignores_caches_witness :
  fst (Sample.run 2 (Some 3%nat) EmptyString ".btn" Sample.start)
  = fst (Sample.run 2 (Some 3%nat) EmptyString ".btn"
           (mkState
              (alter (fun o => mkRule (template o) (feed o)
                                 (Some Sample.twice) (depends o))
                 3%nat Sample.rules) [])).
Proof.
  exact (Stylesheet_ignores_caches Sample.Execute Sample.Parse 2 (Some 3%nat)
           EmptyString ".btn" Sample.start
           (mkState
              (alter (fun o => mkRule (template o) (feed o)
                                 (Some Sample.twice) (depends o))
                 3%nat Sample.rules) [])
           stale_agrees).
Defined.

(** X8 on the sample rules. *)
Lemma Stylesheet_terminates_witness :
  exists out st',
    out <> OutOfFuel /\
    forall fuel, (4 < fuel)%nat ->
      Sample.run fuel (Some 3%nat) EmptyString ".btn" Sample.start
      = (out, st').
Proof.
  exact (Stylesheet_terminates Sample.Execute Sample.Parse (Some 3%nat)
           EmptyString ".btn" Sample.start sample_ordered).
Defined.

Lemma sample2_ordered : ordered Sample2.rules.
Proof.
  intros a this Ha.
  do 4 (destruct a as [|a];
    [ injection Ha as <-; cbn; split;
      [ intros f Hf; try discriminate; injection Hf as <-; lia
      | repeat (apply List.Forall_cons;
                [ intros d Hd; first [discriminate|injection Hd as <-; lia]
                | ]);
        apply List.Forall_nil ]
    | ]).
  discriminate.
Qed.

(** X9 at rule [2] of the second sample: its feed, rule [0], fails. *)
Lemma Stylesheet_feed_fails_witness :
  Sample.run 2 (Some 2%nat) EmptyString ".btn" Sample2.start
  = (Err "boom", mkState Sample2.rules [Some 2%nat; Some 0%nat]).
Proof.
  exact (proj1 (Stylesheet_feed_fails Sample.Execute Sample.Parse 1 2
                  (mkRule [Sample.Text ".b{}"] (Some 0%nat) None [Some 1%nat])
                  0 EmptyString ".btn" Sample2.start "boom"
                  (mkState Sample2.rules [Some 2%nat; Some 0%nat])
                  sample2_ordered eq_refl eq_refl eq_refl)).
Defined.

(** X10 at rule [3] of the second sample: a nil pointer follows rule
    [1] in its [depends]. *)
Lemma Stylesheet_nil_depends_witness :
  fst (Sample.run 2 (Some 3%nat) EmptyString ".btn" Sample2.start) = Panic.
Proof.
  exact (Stylesheet_nil_depends Sample.Execute Sample.Parse 0 3
           (mkRule [Sample.Text ".b{}"] None None
              [Some 1%nat; None; Some 0%nat])
           EmptyString ".btn" Sample2.start
           (mkState Sample2.rules [Some 3%nat])
           [Some 1%nat] [Some 0%nat]
           [bcss.mkStylesheet
              [setSelectors (Sample.qualified "&.c" []) [".btn.c"]]]
           (mkState Sample2.rules [Some 3%nat; Some 1%nat])
           eq_refl eq_refl eq_refl eq_refl).
Defined.


(** X13 on the sample rules: a seventh rule is made, rule [3] renders
    as before. *)
Lemma New_spares_renderings_witness :
  fst (Sample.run 2 (Some 3%nat) EmptyString ".btn"
         (snd (New Sample.ParseTemplate ".b{}" (Some 3%nat) [Some 0%nat]
                 Sample.start)))
  = fst (Sample.run 2 (Some 3%nat) EmptyString ".btn" Sample.start).
Proof.
  refine (proj1 (New_spares_renderings Sample.Execute Sample.Parse
                   Sample.ParseTemplate ".b{}" (Some 3%nat) [Some 0%nat]
                   (Some 6%nat) 2 (Some 3%nat) EmptyString ".btn"
                   Sample.start _ sample_ordered _ eq_refl)).
  cbn. lia.
Defined.

(** X14 to X18 on a directory with one style sheet. *)
Lemma Build_returns_nil_map_witness :
  match SampleAssets.Build (assets.New None) "site" true with
  | assets.Returns wd err => wd = None
  | assets.Panics => True
  end.
Proof.
  destruct (SampleAssets.Build (assets.New None) "site" true)
    as [wd err|] eqn:E; [|exact I].
  exact (Build_returns_nil_map (fun s => s) SampleAssets.GetDirStatement
           map_to_list SampleAssets.noPackerError
           (assets.New None) "site" true wd err E).
Defined.

Lemma Build_drops_pack_error_witness :
  SampleAssets.Build (assets.New (Some SampleAssets.refuse)) "site" true
  = assets.Returns None None.
Proof.
  apply (Build_drops_pack_error (fun s => s) SampleAssets.GetDirStatement
           map_to_list SampleAssets.noPackerError
           (assets.New (Some SampleAssets.refuse)) "site" true
           {[ "css" := ["a.css"] ]} "css" ["a.css"] [] SampleAssets.refuse
           [] "cannot pack").
  - reflexivity.
  - vm_compute. reflexivity.
  - right. split; reflexivity.
  - reflexivity.
Defined.

Lemma Build_panics_when_packed_witness :
  SampleAssets.Build (assets.New (Some SampleAssets.copy)) "site" true
  = assets.Panics.
Proof.
  apply (Build_panics_when_packed (fun s => s) SampleAssets.GetDirStatement
           map_to_list SampleAssets.noPackerError
           (assets.New (Some SampleAssets.copy)) "site" true
           {[ "css" := ["a.css"] ]} "css" ["a.css"] [] SampleAssets.copy
           [assets.mkWriteDirective "a.css" "a.css" "a.css"]).
  - reflexivity.
  - vm_compute. reflexivity.
  - right. split; reflexivity.
  - reflexivity.
Defined.

(** X17 on the sample: a packer registered for [css] takes over from
    the default one, and [Build] takes its failure for a success. *)
Lemma Register_serves_witness :
  match assets.Register (assets.New (Some SampleAssets.copy)) "css"
          (Some SampleAssets.refuse) with
  | Some w => SampleAssets.Build w "site" true = assets.Returns None None
  | None => False
  end.
Proof.
  destruct (Register_serves (fun s => s) SampleAssets.GetDirStatement
              map_to_list SampleAssets.noPackerError
              (assets.New (Some SampleAssets.copy)) "css" SampleAssets.refuse)
    as [Hmade Hserved].
  destruct (assets.Register (assets.New (Some SampleAssets.copy)) "css"
              (Some SampleAssets.refuse)) as [w|] eqn:E.
  - destruct (Hserved w E) as (_ & _ & _ & HBuild & _).
    exact (HBuild "site" true {[ "css" := ["a.css"] ]} ["a.css"] []
             eq_refl ltac:(vm_compute; reflexivity)).
  - exact (Hmade (Some SampleAssets.copy) eq_refl E).
Defined.

Lemma Compile_packs_nothing_witness :
  match SampleAssets.Compile (assets.New (Some SampleAssets.refuse)) "site"
          true with
  | assets.Returns content err =>
    (err = None /\ content = Some "// site") \/
    (exists e, err = Some e /\ content = None /\
               SampleAssets.Build (assets.New (Some SampleAssets.refuse))
                 "site" true = assets.Returns None (Some e))
  | assets.Panics => True
  end.
Proof.
  destruct (SampleAssets.Compile (assets.New (Some SampleAssets.refuse))
              "site" true) as [content err|] eqn:E; [|exact I].
  exact (Compile_packs_nothing (fun s => s) SampleAssets.GetDirStatement
           map_to_list SampleAssets.noPackerError SampleAssets.packedSource
           (assets.New (Some SampleAssets.refuse)) "site" true content err E).
Defined.

(** With no packer at all, [Build] names the extension it cannot serve;
    with one that fails, [Compile] returns a source all the same. *)
Example Build_without_packer :
  SampleAssets.Build (assets.New None) "site" true
  = assets.Returns None (Some (SampleAssets.noPackerError "css")).
Proof. vm_compute. reflexivity. Qed.

Example Compile_hides_failure :
  SampleAssets.Compile (assets.New (Some SampleAssets.refuse)) "site" true
  = assets.Returns (Some "// site") None.
Proof. vm_compute. reflexivity. Qed.
